(** * Loop closing engine of stereo_slam: a shallow embedding of
      [src/loop_closing.cpp] and the properties of its queue, of the
      neighbourhood search and of the hash candidate search. *)

From stdpp Require Import gmap list sorting numbers.
From Stdlib Require Import QArith Qcanon SpecFloat.

Local Open Scope Z_scope.

(** ** Data that comes from OpenCV *)

(** [cv::DMatch]: indices into the query and the train descriptor sets
    (both are C++ [int]s). *)
Record DMatch := mkDMatch { queryIdx : Z; trainIdx : Z }.

(** ** The collaborators of the engine

    Everything the translation unit calls but does not define: OpenCV, tf,
    the hash library, [Tools] and the constants of the absent headers.
    [float] values (hash components, matching scores) are taken as exact
    rationals. *)
Class Vision := {
  Transform : Type;                 (* tf::Transform *)
  Mat : Type;                       (* cv::Mat holding a pose or the camera matrix *)
  KeyPoint : Type;                  (* cv::KeyPoint *)
  Point2f : Type;                   (* cv::Point2f *)
  Point3f : Type;                   (* cv::Point3f *)
  Descriptor : Type;                (* one row of a descriptor cv::Mat *)
  HashEngine : Type;                (* the state of the hash object hash_ *)
  pt : KeyPoint → Point2f;                           (* KeyPoint::pt *)
  transform_point : Transform → Point3f → Point3f;   (* tf::Transform * tf::Vector3 *)
  transformToMat : Transform → Mat;                  (* Tools::transformToMat *)
  matToTransform : Mat → Transform;                  (* Tools::matToTransform *)
  ratioMatching : list Descriptor → list Descriptor → Qc → list DMatch;
  isInitialized : HashEngine → bool;
  init : HashEngine → list Descriptor → HashEngine;
  getHash : HashEngine → list Descriptor → list Qc;
  hash_match : HashEngine → list Qc → list Qc → Qc;
  sortByMatching : Z * Qc → Z * Qc → bool;           (* Tools::sortByMatching *)
  solvePnPRansac : list Point3f → list Point2f → Mat → Z → list Z;
  LC_NEIGHBORS : nat;
  MAX_INLIERS : Z;
  (* what the default constructor Cluster::Cluster() leaves in the scalar fields *)
  default_id : Z;
  default_frame_id : Z;
  default_pose : Transform
}.

(** [v[i]] for a [std::vector] and a signed index: outside [0 .. size-1]
    the read is undefined, which is [None] here. *)
Definition at_ {A} (v : list A) (i : Z) : option A :=
  if decide (0 ≤ i) then v !! Z.to_nat i else None.

(** C [round] on a non-negative quotient [p / q], [q > 0]: the nearest
    integer, halves away from zero. *)
Definition round_div (p q : Z) : Z := (2 * p + q) `div` (2 * q).

(** ** The arithmetic of line 129

    [round(100.0 * (float) matches / (float) min(size_c, size_n))],
    assigned to an [int]: the two counts are rounded to binary32, the
    product and the quotient are binary64 operations, [round] takes the
    quotient to the nearest integer with halves away from zero, and the
    conversion to a 32-bit [int] is undefined ([None]) for a value that is
    not a number, infinite or outside the range of [int]. *)

(** [(float) n]. *)
Definition to_float (n : Z) : spec_float := binary_normalize 24 128 n 0 false.

(** The [double] constant [100.0]. *)
Definition hundred : spec_float := binary_normalize 53 1024 100 0 false.

(** [int v = round(x)] for a [double] [x]. *)
Definition round_to_int (x : spec_float) : option Z :=
  match x with
  | S754_zero _ => Some 0
  | S754_finite sign m e =>
    let a := if decide (0 ≤ e) then Z.pos m * 2 ^ e
             else (Z.pos m + 2 ^ (- e - 1)) `div` 2 ^ (- e) in
    let v := if sign then - a else a in
    if decide (- 2 ^ 31 ≤ v < 2 ^ 31) then Some v else None
  | _ => None
  end.

Definition m_percentage_float (matches d : Z) : option Z :=
  round_to_int (SFdiv 53 1024 (SFmul 53 1024 hundred (to_float matches)) (to_float d)).

(** Counts that a [float] holds exactly. For them both casts and the
    product are exact and the binary64 quotient lies closer to the exact
    quotient [100 * matches / d] than any half-integer that the exact
    quotient is not (the two differ by at least [1 / (2 * d)], the
    rounding error is below [100 * matches / 2^53]), so that [round]
    returns [round_div (100 * matches) d], a value below [2^31]. *)
Definition float_exact (matches d : Z) : Prop :=
  matches < 16777216 ∧ d < 16777216.

(** Modelled from the spec: the comparator [Tools::sortByMatching] of
    tools.h, which is not part of the translation unit. The spec sorts
    "descending by score (ties broken by lower id)": [d1] goes before [d2]
    when its score is higher, or the scores are equal and its id lower. *)
Definition sortByMatching_spec (d1 d2 : Z * Qc) : bool :=
  bool_decide ((d2.2 < d1.2)%Qc ∨ (d1.2 = d2.2 ∧ d1.1 < d2.1)).

(** The order of a list sorted with [sortByMatching_spec]: what stands on
    the left has a higher score, or the same score and an id that is not
    higher. *)
Definition best_first (a b : Z * Qc) : Prop :=
  (b.2 < a.2)%Qc ∨ (a.2 = b.2 ∧ a.1 ≤ b.1).

Section Model.
Context {V : Vision}.

(** ** Clusters, the working directory and the engine state *)

Record Cluster := mkCluster {
  id_ : Z;
  frame_id_ : Z;
  pose_ : Transform;
  kp_ : list KeyPoint;
  orb_ : list Descriptor;
  sift_ : list Descriptor;
  points_ : list Point3f
}.

(** [Cluster cluster;]: the scalar fields are what the constructor of the
    absent cluster.h leaves there, the containers are empty. *)
Definition Cluster_default : Cluster :=
  mkCluster default_id default_frame_id default_pose [] [] [] [].

(** One [<id>.yml] file of the execution directory. A key without an entry
    is a file that does not exist; [Unopenable] is a file that exists and
    that [cv::FileStorage::open] cannot open. *)
Inductive YmlFile :=
| Unopenable
| Yml (frame_id : Z) (pose : Mat) (kp : list KeyPoint)
      (desc : list Descriptor) (threed : list Point3f).

(** The part of [Graph] the engine reaches through [graph_]. *)
Record Graph := mkGraph {
  camera_matrix_ : Mat;
  edges_ : list (Z * Z * Transform * Z)
}.

Record LoopClosing := mkLoopClosing {
  cluster_queue_ : list Cluster;
  c_cluster_ : Cluster;
  hash_ : HashEngine;
  hash_table_ : list (Z * list Qc);
  lc_found_ : list (Z * Z);
  execution_dir_ : gmap Z YmlFile;
  graph_ : Graph
}.

(** ** The queue *)

Definition addClusterToQueue (cluster : Cluster) (s : LoopClosing) : LoopClosing :=
  mkLoopClosing (cluster_queue_ s ++ [cluster]) (c_cluster_ s) (hash_ s)
    (hash_table_ s) (lc_found_ s) (execution_dir_ s) (graph_ s).

Definition checkNewClusterInQueue (s : LoopClosing) : bool :=
  bool_decide (cluster_queue_ s ≠ []).

(** [front()] of an empty list is undefined: [None]. The write of the
    [.yml] file is taken to succeed. *)
Definition processNewCluster (s : LoopClosing) : option LoopClosing :=
  match cluster_queue_ s with
  | [] => None
  | c :: queue =>
    let h := if isInitialized (hash_ s) then hash_ s else init (hash_ s) (sift_ c) in
    Some (mkLoopClosing queue c h
            (hash_table_ s ++ [(id_ c, getHash h (sift_ c))])
            (lc_found_ s)
            (<[id_ c := Yml (frame_id_ c) (transformToMat (pose_ c)) (kp_ c)
                            (orb_ c) (points_ c)]> (execution_dir_ s))
            (graph_ s))
  end.

(** ** Reading a cluster back *)

(** The arguments of the constructor are read in the order of the fields:
    the stored descriptors are the ORB ones, the SIFT ones stay empty. *)
Definition readCluster (s : LoopClosing) (id : Z) : Cluster :=
  match execution_dir_ s !! id with
  | None => Cluster_default                       (* !fs::exists(file) *)
  | Some Unopenable => Cluster_default            (* !fs.isOpened() *)
  | Some (Yml frame_id pose kp desc points) =>
    mkCluster id frame_id (matToTransform pose) kp desc [] points
  end.

(** [readCluster] as the member function it is: the cluster it returns and
    the engine it leaves. It assigns no member, and the only file it
    touches is opened with [cv::FileStorage::READ]. *)
Definition readCluster_call (id : Z) (s : LoopClosing) : Cluster * LoopClosing :=
  (readCluster s id, s).

(** ** Search in the neighbourhood *)

(** [m_percentage] of line 129. With an empty descriptor set the quotient
    is not a number or infinite, and its conversion to [int] is undefined.
    For counts below 2^24 the value is the exact quotient rounded to the
    nearest integer; beyond, it is what the floating-point operations
    give. *)
Definition m_percentage (matches size_c size_n : nat) : option Z :=
  let d := Z.of_nat (size_c `min` size_n) in
  let m := Z.of_nat matches in
  if decide (d = 0) then None
  else if decide (float_exact m d) then Some (round_div (100 * m) d)
  else m_percentage_float m d.

(** The counts of the current cluster and a neighbour are below 2^24. *)
Definition counts_exact (c neighbor : Cluster) : Prop :=
  float_exact
    (Z.of_nat (length (ratioMatching (orb_ c) (orb_ neighbor) (Q2Qc (4 # 5)))))
    (Z.of_nat (length (orb_ c) `min` length (orb_ neighbor))).

(** What one iteration of the [for] loop over the matches pushes. *)
Definition correspondence (kp : list KeyPoint) (neighbor : Cluster) (m : DMatch)
  : option (Point2f * Point3f) :=
  k ← at_ kp (queryIdx m);
  p ← at_ (points_ neighbor) (trainIdx m);
  Some (pt k, transform_point (pose_ neighbor) p).

(** The local variables of [searchInNeigborhood]; [visited] and [examined]
    are ghost traces: the ids passed to [readCluster], and among them
    those passed to [Tools::ratioMatching]. *)
Record Locals := mkLocals {
  processed_neighbors : nat;
  matched_kp : list Point2f;
  matched_points : list Point3f;
  visited : list Z;
  examined : list Z
}.

(** What a neighbour of another frame adds to [matched_kp] and
    [matched_points]. *)
Definition contribution (c neighbor : Cluster) : option (list Point2f * list Point3f) :=
  let matches := ratioMatching (orb_ c) (orb_ neighbor) (Q2Qc (4 # 5)) in
  m ← m_percentage (length matches) (length (orb_ c)) (length (orb_ neighbor));
  if decide (50 < m)
  then pairs ← mapM (correspondence (kp_ c) neighbor) matches;
       Some (pairs.*1, pairs.*2)
  else Some ([], []).

(** The test [neighbor.getFrameId() != current_frame_id] at [neighbor_id]. *)
Definition other_frame (s : LoopClosing) (neighbor_id : Z) : Prop :=
  frame_id_ (readCluster s neighbor_id) ≠ frame_id_ (c_cluster_ s).

#[global] Instance other_frame_dec s neighbor_id : Decision (other_frame s neighbor_id).
Proof. unfold other_frame. apply _. Defined.

(** The body of the [while] loop at [neighbor_id]. *)
Definition visit (s : LoopClosing) (neighbor_id : Z) (l : Locals) : option Locals :=
  let c := c_cluster_ s in
  let neighbor := readCluster s neighbor_id in
  if decide (other_frame s neighbor_id)
  then '(kps, pts) ← contribution c neighbor;
       Some (mkLocals (S (processed_neighbors l))
               (matched_kp l ++ kps) (matched_points l ++ pts)
               (visited l ++ [neighbor_id]) (examined l ++ [neighbor_id]))
  else Some (mkLocals (processed_neighbors l) (matched_kp l) (matched_points l)
               (visited l ++ [neighbor_id]) (examined l)).

(** The [while] loop; [n] is [neighbor_id + 1], so that
    [neighbor_id >= 0] is [n ≠ 0] and [neighbor_id--] is the recursive
    call. *)
Fixpoint neighbors_loop (s : LoopClosing) (n : nat) (l : Locals) : option Locals :=
  match n with
  | O => Some l
  | S m =>
    if decide (processed_neighbors l < LC_NEIGHBORS)%nat
    then l' ← visit s (Z.of_nat m) l; neighbors_loop s m l'
    else Some l
  end.

(** What [searchInNeigborhood] leaves behind: the locals at the end of the
    loop, the argument lists of every call of [solvePnPRansac] (a ghost
    trace), the inliers that came back and the three numbers of the log
    line. *)
Record Neighborhood := mkNeighborhood {
  locals : Locals;
  pnp_calls : list (list Point3f * list Point2f);
  inliers : list Z;
  log_line : nat * nat * nat
}.

Definition searchInNeigborhood (s : LoopClosing) : option Neighborhood :=
  let id := id_ (c_cluster_ s) in
  l ← neighbors_loop s (Z.to_nat id) (mkLocals 0 [] [] [] []);
  let inl := solvePnPRansac (matched_points l) (matched_kp l)
               (camera_matrix_ (graph_ s)) MAX_INLIERS in
  Some (mkNeighborhood l [(matched_points l, matched_kp l)] inl
          (processed_neighbors l, length (matched_points l), length inl)).

(** ** Search by hash *)

(** The ids already paired with [cluster_id] in [lc_found_]. *)
Definition no_candidates (lc_found : list (Z * Z)) (cluster_id : Z) : list Z :=
  lc ← lc_found;
  (if decide (lc.1 = cluster_id) then [lc.2] else []) ++
  (if decide (lc.2 = cluster_id) then [lc.1] else []).

(** One iteration of the loop over the stored hashes: [None] is
    [continue], [Some] is the pair pushed to [all_matchings]. The table is
    not empty when the loop runs, so [size - 1] does not wrap. *)
Definition hash_matching (s : LoopClosing) (cluster_id : Z) (no_cand : list Z)
    (hash_q : list Qc) (i : nat) : option (Z * Qc) :=
  if decide (length (hash_table_ s) - 1 < i)%nat then None else
  '(id, hash_t) ← hash_table_ s !! i;
  if decide (id = cluster_id) then None else
  if decide (id ∈ no_cand) then None else
  Some (id, hash_match (hash_ s) hash_q hash_t).

(** [std::sort] with the comparator [comp]: a permutation in which no
    element is [comp]-before an element on its left. *)
Definition sort (comp : Z * Qc → Z * Qc → bool) (v : list (Z * Qc)) : list (Z * Qc) :=
  merge_sort (λ a b, ¬ comp b a) v.

(** [getCandidates]: the value left in [candidates], [None] when the read
    of [hash_table_[cluster_id]] is out of bounds. After the first test
    [hash_table_.size() > LC_NEIGHBORS], so the unsigned difference
    [size - LC_NEIGHBORS - 1] does not wrap. *)
Definition getCandidates (s : LoopClosing) (cluster_id : Z) : option (list (Z * Qc)) :=
  if decide (length (hash_table_ s) ≤ LC_NEIGHBORS)%nat then Some [] else
  let no_cand := no_candidates (lc_found_ s) cluster_id in
  '(_, hash_q) ← at_ (hash_table_ s) cluster_id;
  let all_matchings :=
    omap (hash_matching s cluster_id no_cand hash_q)
         (seq 0 (length (hash_table_ s) - LC_NEIGHBORS - 1)) in
  let sorted := sort sortByMatching all_matchings in
  let max_size := if decide (length sorted < 5)%nat then length sorted else 5%nat in
  Some (take max_size sorted).

Definition searchByHash (s : LoopClosing) : option LoopClosing :=
  hash_matching ← getCandidates s (id_ (c_cluster_ s));
  if decide (length hash_matching = 0%nat) then Some s else Some s.

(** ** The producer and the consumer of the queue

    What the two threads do to the queue: the front end calls
    [addClusterToQueue], the loop of [run] calls [processNewCluster] when
    [checkNewClusterInQueue] answers yes. [exec] runs a schedule of such
    calls and records, in order, the clusters that became [c_cluster_]. *)
Inductive Op :=
| Enqueue (cluster : Cluster)
| Process.

Definition enqueued (ops : list Op) : list Cluster :=
  ops ≫= λ op, match op with Enqueue c => [c] | Process => [] end.

Fixpoint exec (ops : list Op) (s : LoopClosing) : option (list Cluster * LoopClosing) :=
  match ops with
  | [] => Some ([], s)
  | Enqueue c :: ops' => exec ops' (addClusterToQueue c s)
  | Process :: ops' =>
    if checkNewClusterInQueue s
    then s1 ← processNewCluster s;
         '(done, s2) ← exec ops' s1;
         Some (c_cluster_ s1 :: done, s2)
    else exec ops' s
  end.

(** The ids [n-1], [n-2], ..., [0]. *)
Fixpoint backward (n : nat) : list Z :=
  match n with
  | O => []
  | S m => Z.of_nat m :: backward m
  end.

(** One pass of the body of [run] when a cluster is waiting. *)
Definition run_step (s : LoopClosing) : option LoopClosing :=
  if checkNewClusterInQueue s
  then s1 ← processNewCluster s;
       _ ← searchInNeigborhood s1;
       searchByHash s1
  else Some s.

(** ** The rest of [run] and [finalize] *)

(** The start of [run]: the directory is removed with all it holds and
    created again. Only the files are modelled, so what is left is a
    directory without files (its creation is taken to succeed). *)
Definition run_init (s : LoopClosing) : LoopClosing :=
  mkLoopClosing (cluster_queue_ s) (c_cluster_ s) (hash_ s) (hash_table_ s)
    (lc_found_ s) ∅ (graph_ s).

(** [finalize]: [fs::remove_all(execution_dir_)]; no file is left. *)
Definition finalize (s : LoopClosing) : LoopClosing :=
  mkLoopClosing (cluster_queue_ s) (c_cluster_ s) (hash_ s) (hash_table_ s)
    (lc_found_ s) ∅ (graph_ s).

(** The [while] loop of [run] under a schedule: [Enqueue] is a call of
    [addClusterToQueue] by the front end between two passes, [Process] is
    one pass of the loop body (the two publications read the engine and
    leave it alone). *)
Fixpoint run_loop (ops : list Op) (s : LoopClosing) : option LoopClosing :=
  match ops with
  | [] => Some s
  | Enqueue c :: ops' => run_loop ops' (addClusterToQueue c s)
  | Process :: ops' => s' ← run_step s; run_loop ops' s'
  end.

(** ** Vocabulary of the statements *)

(** The file [processNewCluster] writes for a cluster, and the cluster
    [readCluster] builds from that file. *)
Definition file_of (c : Cluster) : YmlFile :=
  Yml (frame_id_ c) (transformToMat (pose_ c)) (kp_ c) (orb_ c) (points_ c).

Definition read_back (c : Cluster) : Cluster :=
  mkCluster (id_ c) (frame_id_ c) (matToTransform (transformToMat (pose_ c)))
    (kp_ c) (orb_ c) [] (points_ c).

(** The rows the loop of [getCandidates] scans, and the test a scanned row
    passes to be scored. *)
Definition scanned (s : LoopClosing) : list (Z * list Qc) :=
  take (length (hash_table_ s) - LC_NEIGHBORS - 1) (hash_table_ s).

Definition eligible (s : LoopClosing) (cluster_id : Z) (row : Z * list Qc) : Prop :=
  row.1 ≠ cluster_id ∧ row.1 ∉ no_candidates (lc_found_ s) cluster_id.

#[global] Instance eligible_dec s cluster_id row : Decision (eligible s cluster_id row).
Proof. unfold eligible. apply _. Defined.

Definition scored (s : LoopClosing) (hash_q : list Qc) (row : Z * list Qc) : Z * Qc :=
  (row.1, hash_match (hash_ s) hash_q row.2).

(** A match whose two indices are inside the keypoints of the current
    cluster and the points of the neighbour. *)
Definition in_range (c neighbor : Cluster) (m : DMatch) : Prop :=
  0 ≤ queryIdx m < Z.of_nat (length (kp_ c)) ∧
  0 ≤ trainIdx m < Z.of_nat (length (points_ neighbor)).

End Model.

(** ** A concrete set of collaborators

    Descriptors, points and poses are integers; two descriptors match when
    they are equal; the hash of a cluster is its descriptor list and the
    similarity of two hashes is the number of positions that agree. *)
Module Toy.

Fixpoint find_index (d : Z) (train : list Z) (j : Z) : option Z :=
  match train with
  | [] => None
  | t :: train' => if decide (t = d) then Some j else find_index d train' (j + 1)
  end.

Fixpoint match_from (query train : list Z) (i : Z) : list DMatch :=
  match query with
  | [] => []
  | d :: query' =>
    match find_index d train 0 with
    | Some j => mkDMatch i j :: match_from query' train (i + 1)
    | None => match_from query' train (i + 1)
    end
  end.

Fixpoint agreements (a b : list Qc) : Z :=
  match a, b with
  | x :: a', y :: b' => (if decide (x = y) then 1 else 0) + agreements a' b'
  | _, _ => 0
  end.

#[export] Instance vision : Vision := {|
  Transform := Z; Mat := Z; KeyPoint := Z; Point2f := Z; Point3f := Z;
  Descriptor := Z; HashEngine := bool;
  pt := λ k, k;
  transform_point := λ t p, t + p;
  transformToMat := λ t, t;
  matToTransform := λ m, m;
  ratioMatching := λ query train _, match_from query train 0;
  isInitialized := λ h, h;
  init := λ _ _, true;
  getHash := λ _ sift, Qc_of_Z <$> sift;
  hash_match := λ _ a b, Qc_of_Z (agreements a b);
  sortByMatching := sortByMatching_spec;
  solvePnPRansac := λ pts _ _ _,
    if decide (length pts < 4)%nat then [] else Z.of_nat <$> seq 0 (length pts);
  LC_NEIGHBORS := 5;
  MAX_INLIERS := 100;
  default_id := -1;
  default_frame_id := -1;
  default_pose := 0
|}.

(** Cluster [i] of frame [i], with the three descriptors [i], [i+1], [7]. *)
Definition cluster (i : Z) : Cluster :=
  mkCluster i i 0 [10 * i; 10 * i + 1; 10 * i + 2] [i; i + 1; 7]
    [i `mod` 3; 7; i `mod` 2] [i; i; i].

Definition start : LoopClosing :=
  mkLoopClosing [] Cluster_default false [] [] ∅ (mkGraph 0 []).

(** The engine after the clusters of [cs] were enqueued and went through
    [run_step] one after the other. *)
Fixpoint ingest (cs : list Cluster) (s : LoopClosing) : option LoopClosing :=
  match cs with
  | [] => Some s
  | c :: cs' => s' ← run_step (addClusterToQueue c s); ingest cs' s'
  end.

(** The engine after clusters [0 .. n-1]. *)
Definition ingested (n : nat) : LoopClosing :=
  default start (ingest (cluster <$> (Z.of_nat <$> seq 0 n)) start).

(** The engine after clusters [0 .. 10], with the pair {10, 4} written
    into the loop-closure set by hand (the translation unit never writes
    it). *)
Definition closed_10_4 : LoopClosing :=
  let s := ingested 11 in
  mkLoopClosing (cluster_queue_ s) (c_cluster_ s) (hash_ s) (hash_table_ s)
    [(10, 4)] (execution_dir_ s) (graph_ s).

(** Two clusters of 101 descriptors each, 51 of which match: 50.495 %. *)
Definition half_101 : list Cluster :=
  [ mkCluster 0 0 0 (seqZ 0 101) (seqZ 0 51 ++ seqZ 1000 50) [0] (seqZ 0 101);
    mkCluster 1 1 0 (seqZ 0 101) (seqZ 0 101) [1] (seqZ 0 101) ].

(** Two clusters of 200 descriptors each, 101 of which match: 50.5 %. *)
Definition half_200 : list Cluster :=
  [ mkCluster 0 0 0 (seqZ 0 200) (seqZ 0 101 ++ seqZ 1000 99) [0] (seqZ 0 200);
    mkCluster 1 1 0 (seqZ 0 200) (seqZ 0 200) [1] (seqZ 0 200) ].

Definition half_101_state : LoopClosing := default start (ingest half_101 start).
Definition half_200_state : LoopClosing := default start (ingest half_200 start).

(** The candidates of cluster 10 after clusters [0 .. 10]. *)
Definition top5_of_10 : list (Z * Qc) :=
  [(4, Qc_of_Z 3); (0, Qc_of_Z 2); (1, Qc_of_Z 2); (2, Qc_of_Z 2); (3, Qc_of_Z 1)].

(** The same search once {10, 4} is a recorded loop closure. *)
Definition top4_of_10 : list (Z * Qc) :=
  [(0, Qc_of_Z 2); (1, Qc_of_Z 2); (2, Qc_of_Z 2); (3, Qc_of_Z 1)].

(** What [searchInNeigborhood] leaves for cluster 10 after clusters
    [0 .. 10]. *)
Definition walk_of_10 : Neighborhood :=
  mkNeighborhood (mkLocals 5 [100; 102] [9; 9] [9; 8; 7; 6; 5] [9; 8; 7; 6; 5])
    [([9; 9], [100; 102])] [] (5%nat, 2%nat, 0%nat).

(** The candidates of cluster 10 after clusters [0 .. 15]. *)
Definition top5_of_10_after_16 : list (Z * Qc) :=
  [(4, Qc_of_Z 3); (0, Qc_of_Z 2); (1, Qc_of_Z 2); (2, Qc_of_Z 2); (6, Qc_of_Z 2)].

(** What [searchInNeigborhood] leaves for cluster 0, the first one. *)
Definition walk_of_0 : Neighborhood :=
  mkNeighborhood (mkLocals 0 [] [] [] []) [([], [])] [] (0%nat, 0%nat, 0%nat).

(** The number of matches and the smaller descriptor count of the
    neighbour [j] of the current cluster. *)
Definition matches_of (s : LoopClosing) (j : Z) : nat :=
  length (ratioMatching (orb_ (c_cluster_ s)) (orb_ (readCluster s j)) (Q2Qc (4 # 5))).

Definition smaller_of (s : LoopClosing) (j : Z) : nat :=
  length (orb_ (c_cluster_ s)) `min` length (orb_ (readCluster s j)).

(** Cluster 0 waiting in a fresh engine, and the engine once it is
    processed. *)
Definition queued_0 : LoopClosing := addClusterToQueue (cluster 0) start.

Definition stored_0 : LoopClosing :=
  mkLoopClosing [] (cluster 0) true [(0, [Qc_of_Z 0; Qc_of_Z 7; Qc_of_Z 0])] []
    (<[0 := file_of (cluster 0)]> ∅) (mkGraph 0 []).

(** Three clusters enqueued and processed, the last one enqueued between
    two passes of the loop. *)
Definition schedule_3 : list Op :=
  [Enqueue (cluster 0); Enqueue (cluster 1); Process; Enqueue (cluster 2);
   Process; Process].

(** Two clusters cut from the same frame 7. *)
Definition twins : list Cluster :=
  [ mkCluster 0 7 0 [1; 2] [5; 6] [0] [3; 4];
    mkCluster 1 7 0 [1; 2] [5; 6] [1] [3; 4] ].

Definition twins_state : LoopClosing := default start (ingest twins start).

(** The hash of cluster 10. *)
Definition hash_of_10 : list Qc := [Qc_of_Z 1; Qc_of_Z 7; Qc_of_Z 0].

End Toy.

(** * Properties *)

Section Properties.
Context {V : Vision}.
Implicit Types (s : LoopClosing) (c : Cluster) (cands : list (Z * Qc)).

(** ** Reads of vectors *)

Lemma at_is_Some {A} (v : list A) (i : Z) :
  is_Some (at_ v i) ↔ 0 ≤ i < Z.of_nat (length v).
Proof.
  unfold at_. case_decide as Hi.
  - rewrite lookup_lt_is_Some. lia.
  - split; [by intros [? ?]|lia].
Qed.

(** ** The candidates of the hash search *)

Lemma no_candidates_spec (lc_found : list (Z * Z)) (cluster_id x : Z) :
  x ∈ no_candidates lc_found cluster_id ↔
  (cluster_id, x) ∈ lc_found ∨ (x, cluster_id) ∈ lc_found.
Proof.
  unfold no_candidates. rewrite list_elem_of_bind. split.
  - intros [[a b] [Hx Hin]]. simpl in Hx.
    apply elem_of_app in Hx as [Hx|Hx]; case_decide as E;
      try (by apply elem_of_nil in Hx);
      apply list_elem_of_singleton in Hx; subst; auto.
  - intros [Hin|Hin]; [exists (cluster_id, x)|exists (x, cluster_id)];
      (split; [|done]); simpl; apply elem_of_app.
    + left. rewrite decide_True by done. by apply list_elem_of_singleton.
    + right. rewrite decide_True by done. by apply list_elem_of_singleton.
Qed.

Lemma sort_Permutation (comp : Z * Qc → Z * Qc → bool) (v : list (Z * Qc)) :
  sort comp v ≡ₚ v.
Proof. apply merge_sort_Permutation. Qed.

(** Every pair pushed by the loop over the stored hashes comes from one of
    the first [size - LC_NEIGHBORS - 1] rows of the table, and its id is
    neither the query nor an id already paired with it. *)
Lemma hash_matching_Some s cluster_id no_cand hash_q i x :
  hash_matching s cluster_id no_cand hash_q i = Some x →
  ∃ hash_t, hash_table_ s !! i = Some (x.1, hash_t) ∧
            x.1 ≠ cluster_id ∧ (x.1 ∉ no_cand) ∧
            x.2 = hash_match (hash_ s) hash_q hash_t.
Proof.
  unfold hash_matching. case_decide; [done|].
  destruct (hash_table_ s !! i) as [[id hash_t]|] eqn:E; simpl; [|done].
  repeat case_decide; try done. intros [= <-]. eauto.
Qed.

Lemma getCandidates_elem s cluster_id cands x :
  getCandidates s cluster_id = Some cands → x ∈ cands →
  ∃ i hash_t, (i < length (hash_table_ s) - LC_NEIGHBORS - 1)%nat ∧
              hash_table_ s !! i = Some (x.1, hash_t) ∧
              x.1 ≠ cluster_id ∧
              (x.1 ∉ no_candidates (lc_found_ s) cluster_id).
Proof.
  unfold getCandidates. case_decide as Hlen.
  - intros [= <-] Hx. by apply elem_of_nil in Hx.
  - destruct (at_ (hash_table_ s) cluster_id) as [[? hash_q]|]; simpl; [|done].
    intros [= <-] Hx. apply subseteq_take in Hx.
    rewrite sort_Permutation in Hx.
    apply list_elem_of_omap in Hx as (i & Hi & Hm).
    apply elem_of_seq in Hi.
    apply hash_matching_Some in Hm as (hash_t & ? & ? & ? & _).
    exists i, hash_t. split_and!; [lia|done..].
Qed.

Lemma getCandidates_length s cluster_id cands :
  getCandidates s cluster_id = Some cands → (length cands ≤ 5)%nat.
Proof.
  unfold getCandidates. case_decide.
  - intros [= <-]. simpl. lia.
  - destruct (at_ (hash_table_ s) cluster_id) as [[? hash_q]|]; [|done].
    intros [= <-]. rewrite length_take. case_decide; lia.
Qed.

(** The search returns exactly when the table is short or the query id is
    the index of one of its rows. *)
Lemma getCandidates_is_Some s cluster_id :
  is_Some (getCandidates s cluster_id) ↔
  (length (hash_table_ s) ≤ LC_NEIGHBORS)%nat ∨
  0 ≤ cluster_id < Z.of_nat (length (hash_table_ s)).
Proof.
  rewrite <-at_is_Some. unfold getCandidates. case_decide as Hlen.
  - split; [by left|eauto].
  - destruct (at_ (hash_table_ s) cluster_id) as [[? hash_q]|] eqn:E; simpl.
    + split; [right|]; eauto.
    + split; [by intros [? ?]|]. intros [?|[? ?]]; done.
Qed.

(** ** The order of the candidates under the comparator of the spec *)

Lemma best_first_not_before (a b : Z * Qc) :
  ¬ sortByMatching_spec b a ↔ best_first a b.
Proof.
  unfold sortByMatching_spec, best_first. rewrite bool_decide_spec.
  destruct (Qclt_le_dec (b.2) (a.2)) as [Hlt|Hle].
  - split; [auto|]. intros _ [Hba|[E _]].
    + by apply (Qclt_not_le _ _ Hlt), Qclt_le_weak.
    + rewrite E in Hlt. by apply (irreflexivity Qclt (a.2)).
  - destruct (decide (a.2 = b.2)) as [E|NE].
    + split.
      * intros Hn. right. split; [done|].
        destruct (decide (a.1 ≤ b.1)); [done|]. destruct Hn. right. split; [done|lia].
      * intros [Hlt|[_ Hid]] [Hba|[_ Hid']].
        -- by apply (Qclt_not_le _ _ Hlt).
        -- by apply (Qclt_not_le _ _ Hlt).
        -- rewrite E in Hba. by apply (irreflexivity Qclt (b.2)).
        -- lia.
    + split.
      * intros Hn. destruct Hn. left.
        apply Qcle_lt_or_eq in Hle as [?|?]; [done|by destruct NE].
      * intros [Hlt|[E _]]; [|done]. by destruct (Qclt_not_le _ _ Hlt).
Qed.

Lemma best_first_total (a b : Z * Qc) : best_first a b ∨ best_first b a.
Proof.
  unfold best_first.
  destruct (Qclt_le_dec (b.2) (a.2)) as [Hlt|Hle]; [auto|].
  apply Qcle_lt_or_eq in Hle as [?|E]; [auto|].
  destruct (decide (a.1 ≤ b.1)); [left|right]; right; (split; [done|lia]).
Qed.

Lemma best_first_trans (a b c : Z * Qc) :
  best_first a b → best_first b c → best_first a c.
Proof.
  unfold best_first. intros [H1|[E1 I1]] [H2|[E2 I2]].
  - left. by apply Qclt_trans with (b.2).
  - left. by rewrite <-E2.
  - left. by rewrite E1.
  - right. split; [congruence|lia].
Qed.

Lemma sort_best_first (v : list (Z * Qc)) :
  (∀ d1 d2, sortByMatching d1 d2 = sortByMatching_spec d1 d2) →
  StronglySorted best_first (sort sortByMatching v).
Proof.
  intros Hcomp. unfold sort.
  set (R := λ a b : Z * Qc, ¬ sortByMatching b a).
  assert (HR : ∀ a b, R a b ↔ best_first a b).
  { intros a b. unfold R. rewrite Hcomp. apply best_first_not_before. }
  assert (Total R).
  { intros a b. rewrite !HR. apply best_first_total. }
  assert (Transitive R).
  { intros a b c. rewrite !HR. apply best_first_trans. }
  pose proof (StronglySorted_merge_sort R v) as Hs.
  induction Hs as [|a l _ IH Hall]; constructor; [done|].
  eapply Forall_impl; [|exact Hall]. intros b Hb. by apply HR.
Qed.

(** With the comparator of the spec no two distinct pairs tie, so the
    sorted vector is the only sorted permutation: nothing depends on what
    an unstable sort does with ties. *)
Lemma sort_best_first_unique (v sorted : list (Z * Qc)) :
  (∀ d1 d2, sortByMatching d1 d2 = sortByMatching_spec d1 d2) →
  sorted ≡ₚ v → StronglySorted best_first sorted →
  sorted = sort sortByMatching v.
Proof.
  intros Hcomp Hperm Hsorted.
  assert (AntiSymm (=) best_first).
  { intros [i x] [j y]. unfold best_first. simpl.
    intros [H1|[-> I1]] [H2|[E2 I2]].
    - destruct (Qclt_not_le _ _ H1). by apply Qclt_le_weak.
    - rewrite E2 in H1. by destruct (irreflexivity Qclt x).
    - by destruct (irreflexivity Qclt y).
    - f_equal. lia. }
  apply (StronglySorted_unique best_first sorted (sort sortByMatching v)).
  - done.
  - by apply sort_best_first.
  - by rewrite Hperm, sort_Permutation.
Qed.

(** ** Claims about the hash search *)

(** C6: the candidate list returned by the global candidate search never
    contains the query id itself, whatever the hash table holds. *)
Theorem getCandidates_never_own_id s cluster_id cands :
  getCandidates s cluster_id = Some cands → cluster_id ∉ cands.*1.
Proof.
  intros Hc Hin. apply list_elem_of_fmap in Hin as (x & -> & Hx).
  destruct (getCandidates_elem _ _ _ _ Hc Hx) as (_ & _ & _ & _ & Hne & _).
  done.
Qed.

(** C4: for every record {a,b} of the loop-closure set, a query for [a]
    never returns [b] and a query for [b] never returns [a]. *)
Theorem getCandidates_excludes_closed_pairs s cluster_id cands (a b : Z) :
  getCandidates s cluster_id = Some cands → (a, b) ∈ lc_found_ s →
  (cluster_id = a → b ∉ cands.*1) ∧ (cluster_id = b → a ∉ cands.*1).
Proof.
  intros Hc Hab. split; intros -> Hin;
    apply list_elem_of_fmap in Hin as (x & Hx1 & Hx);
    destruct (getCandidates_elem _ _ _ _ Hc Hx) as (_ & _ & _ & _ & _ & Hno);
    apply Hno, no_candidates_spec; rewrite <-Hx1; auto.
Qed.

(** C3 (amended): the search returns the empty list whenever the hash
    table holds [LC_NEIGHBORS] entries or fewer, for every query id, and
    also when it holds [LC_NEIGHBORS + 1] entries and the query id is the
    index of one of them. *)
Theorem getCandidates_short_table s cluster_id :
  (length (hash_table_ s) ≤ LC_NEIGHBORS + 1)%nat →
  (length (hash_table_ s) ≤ LC_NEIGHBORS)%nat ∨
    is_Some (at_ (hash_table_ s) cluster_id) →
  getCandidates s cluster_id = Some [].
Proof.
  intros Hlen Hdef. unfold getCandidates. case_decide as Hshort; [done|].
  destruct Hdef as [?|[[? hash_q] E]]; [done|]. rewrite E. simpl.
  replace (length (hash_table_ s) - LC_NEIGHBORS - 1)%nat with 0%nat by lia.
  done.
Qed.

(** C9 (with the comparator of the spec): the candidate list holds at most
    5 entries, ordered by descending score with ties broken by lower id,
    and when the list of the current cluster is empty [searchByHash]
    returns at once with the engine as it was. *)
Theorem getCandidates_top5_best_first s cluster_id cands :
  (∀ d1 d2, sortByMatching d1 d2 = sortByMatching_spec d1 d2) →
  getCandidates s cluster_id = Some cands →
  (length cands ≤ 5)%nat ∧ StronglySorted best_first cands ∧
  (cluster_id = id_ (c_cluster_ s) → cands = [] → searchByHash s = Some s).
Proof.
  intros Hcomp Hc. split_and!.
  - by eapply getCandidates_length.
  - revert Hc. unfold getCandidates. case_decide.
    + intros [= <-]. constructor.
    + destruct (at_ (hash_table_ s) cluster_id) as [[? hash_q]|]; simpl; [|done].
      intros [= <-].
      eapply StronglySorted_app_1_l. rewrite take_drop. by apply sort_best_first.
  - intros -> ->. unfold searchByHash. rewrite Hc. done.
Qed.

(** The engine comes out of [searchByHash] as it went in. *)
Lemma searchByHash_Some s s' : searchByHash s = Some s' → s' = s.
Proof.
  unfold searchByHash.
  destruct (getCandidates s (id_ (c_cluster_ s))) as [cands|]; [|done].
  simpl. by case_decide; intros [= <-].
Qed.

(** C1 (amended): whatever the candidate list of the current cluster,
    [searchByHash] returns after fetching it and leaves the engine as it
    was: no loop-closure record is added and no edge is inserted, so no
    more than one loop closure (in fact none) is confirmed for the
    cluster. *)
Theorem searchByHash_confirms_nothing s cands :
  getCandidates s (id_ (c_cluster_ s)) = Some cands →
  searchByHash s = Some s ∧
  ∀ s', searchByHash s = Some s' →
        lc_found_ s' = lc_found_ s ∧
        edges_ (graph_ s') = edges_ (graph_ s) ∧
        (length (lc_found_ s') ≤ length (lc_found_ s) + 1)%nat.
Proof.
  intros Hc.
  assert (Hs : searchByHash s = Some s).
  { unfold searchByHash. rewrite Hc. simpl. by case_decide. }
  split; [done|]. intros s'. rewrite Hs. intros [= <-]. split_and!; [done..|lia].
Qed.

(** ** Reading a cluster back *)

(** C8: for an id whose file does not exist or cannot be opened,
    [readCluster] returns the default, empty cluster, and the engine with
    its files is after the call what it was before. *)
Theorem readCluster_missing_or_unopenable s (id : Z) :
  execution_dir_ s !! id = None ∨ execution_dir_ s !! id = Some Unopenable →
  readCluster_call id s = (Cluster_default, s) ∧
  kp_ (readCluster s id) = [] ∧ orb_ (readCluster s id) = [] ∧
  points_ (readCluster s id) = [].
Proof. unfold readCluster_call, readCluster. by intros [-> | ->]. Qed.

(** ** The queue *)

Lemma addClusterToQueue_back cluster s :
  cluster_queue_ (addClusterToQueue cluster s) = cluster_queue_ s ++ [cluster].
Proof. done. Qed.

Lemma processNewCluster_front s c queue :
  cluster_queue_ s = c :: queue →
  ∃ s', processNewCluster s = Some s' ∧ c_cluster_ s' = c ∧ cluster_queue_ s' = queue.
Proof. intros E. unfold processNewCluster. rewrite E. eauto. Qed.

Lemma checkNewClusterInQueue_false s :
  checkNewClusterInQueue s = false → cluster_queue_ s = [].
Proof.
  unfold checkNewClusterInQueue. intros H%bool_decide_eq_false.
  by destruct (cluster_queue_ s); [|destruct H].
Qed.

Lemma checkNewClusterInQueue_true s :
  checkNewClusterInQueue s = true → ∃ c queue, cluster_queue_ s = c :: queue.
Proof.
  unfold checkNewClusterInQueue. intros H%bool_decide_eq_true.
  destruct (cluster_queue_ s); [done|eauto].
Qed.

(** C10: the queue is first in, first out. [addClusterToQueue] appends at
    the back; [processNewCluster] removes the front element and makes it
    the current cluster; and under every schedule of enqueues and
    processing steps the clusters processed so far, followed by those still
    waiting, are the clusters that were waiting at the start followed by
    the enqueued ones in the order of their enqueues. *)
Theorem cluster_queue_fifo :
  (∀ cluster s,
     cluster_queue_ (addClusterToQueue cluster s) = cluster_queue_ s ++ [cluster]) ∧
  (∀ s c queue, cluster_queue_ s = c :: queue →
     ∃ s', processNewCluster s = Some s' ∧ c_cluster_ s' = c ∧
           cluster_queue_ s' = queue) ∧
  (∀ ops s, ∃ done s',
     exec ops s = Some (done, s') ∧
     done ++ cluster_queue_ s' = cluster_queue_ s ++ enqueued ops).
Proof.
  split_and!; [apply addClusterToQueue_back|apply processNewCluster_front|].
  induction ops as [|[c|] ops IH]; intros s.
  - exists [], s. simpl. by rewrite app_nil_r.
  - destruct (IH (addClusterToQueue c s)) as (done & s' & He & Hq).
    exists done, s'. split; [done|].
    rewrite Hq, addClusterToQueue_back. unfold enqueued. csimpl.
    by rewrite <-(assoc_L (++)).
  - simpl. destruct (checkNewClusterInQueue s) eqn:Hchk.
    + apply checkNewClusterInQueue_true in Hchk as (c & queue & Hs).
      destruct (processNewCluster_front _ _ _ Hs) as (s1 & Hp & Hc & Hq1).
      destruct (IH s1) as (done & s' & He & Hq).
      exists (c_cluster_ s1 :: done), s'. split.
      * rewrite Hp. simpl. by rewrite He.
      * simpl. rewrite Hq, Hq1, Hs, Hc. done.
    + destruct (IH s) as (done & s' & He & Hq). by exists done, s'.
Qed.

(** ** The search in the neighbourhood *)

(** The rounded percentage exceeds 50 exactly when the quotient
    [100 * m / d] is at least 50.5. *)
Lemma round_div_over_50 (m d : Z) :
  0 < d → (50 < round_div (100 * m) d ↔ 101 * d ≤ 200 * m).
Proof.
  intros Hd. unfold round_div. split; intros H.
  - destruct (decide (101 * d ≤ 200 * m)) as [|Hn]; [done|].
    assert ((2 * (100 * m) + d) `div` (2 * d) < 51); [|lia].
    apply Z.div_lt_upper_bound; lia.
  - assert (51 ≤ (2 * (100 * m) + d) `div` (2 * d)); [|lia].
    apply Z.div_le_lower_bound; lia.
Qed.

Lemma m_percentage_exact (matches size_c size_n : nat) :
  float_exact (Z.of_nat matches) (Z.of_nat (size_c `min` size_n)) →
  m_percentage matches size_c size_n =
    if decide (Z.of_nat (size_c `min` size_n) = 0) then None
    else Some (round_div (100 * Z.of_nat matches) (Z.of_nat (size_c `min` size_n))).
Proof.
  intros Hexact. unfold m_percentage. case_decide; [done|].
  by rewrite decide_True.
Qed.

Lemma m_percentage_Some (matches size_c size_n : nat) (m : Z) :
  float_exact (Z.of_nat matches) (Z.of_nat (size_c `min` size_n)) →
  m_percentage matches size_c size_n = Some m →
  0 < Z.of_nat (size_c `min` size_n) ∧
  (50 < m ↔ 101 * Z.of_nat (size_c `min` size_n) ≤ 200 * Z.of_nat matches).
Proof.
  intros Hexact. rewrite m_percentage_exact by done.
  case_decide as Hd; [done|]. intros [= <-].
  split; [lia|]. apply round_div_over_50. lia.
Qed.

Lemma correspondence_Some (kp : list KeyPoint) (neighbor : Cluster) (m : DMatch) x :
  correspondence kp neighbor m = Some x →
  ∃ k p, at_ kp (queryIdx m) = Some k ∧
         at_ (points_ neighbor) (trainIdx m) = Some p ∧
         x = (pt k, transform_point (pose_ neighbor) p).
Proof.
  unfold correspondence.
  destruct (at_ kp (queryIdx m)) as [k|]; [|done].
  destruct (at_ (points_ neighbor) (trainIdx m)) as [p|]; [|done].
  intros [= <-]. eauto.
Qed.

Lemma contribution_Some c neighbor kps pts :
  contribution c neighbor = Some (kps, pts) →
  let matches := ratioMatching (orb_ c) (orb_ neighbor) (Q2Qc (4 # 5)) in
  ∃ pct,
    m_percentage (length matches) (length (orb_ c)) (length (orb_ neighbor)) = Some pct ∧
    ((50 < pct ∧
      ∃ pairs, mapM (correspondence (kp_ c) neighbor) matches = Some pairs ∧
               kps = pairs.*1 ∧ pts = pairs.*2) ∨
     (¬ 50 < pct ∧ kps = [] ∧ pts = [])).
Proof.
  intros H matches. unfold contribution in H. fold matches in H.
  destruct (m_percentage _ _ _) as [pct|] eqn:Hm; [|done].
  exists pct. split; [done|]. simpl in H. case_decide as H50.
  - left. split; [done|].
    destruct (mapM _ matches) as [pairs|]; [|done].
    injection H as <- <-. eauto.
  - right. by injection H as <- <-.
Qed.

(** What one pass of the loop does to the locals. *)
Lemma visit_Some s (j : Z) (l l' : Locals) :
  visit s j l = Some l' →
  visited l' = visited l ++ [j] ∧
  ((other_frame s j ∧
    examined l' = examined l ++ [j] ∧
    processed_neighbors l' = S (processed_neighbors l) ∧
    ∃ kps pts, contribution (c_cluster_ s) (readCluster s j) = Some (kps, pts) ∧
               matched_kp l' = matched_kp l ++ kps ∧
               matched_points l' = matched_points l ++ pts) ∨
   (¬ other_frame s j ∧
    examined l' = examined l ∧
    processed_neighbors l' = processed_neighbors l ∧
    matched_kp l' = matched_kp l ∧ matched_points l' = matched_points l)).
Proof.
  unfold visit. case_decide as Hf.
  - destruct (contribution _ _) as [[kps pts]|]; [|done].
    intros [= <-]. simpl. split; [done|]. left. split_and!; eauto.
  - intros [= <-]. simpl. split; [done|]. by right.
Qed.

Lemma neighbors_loop_Some s (n : nat) (l l' : Locals) :
  neighbors_loop s n l = Some l' →
  ∃ k : nat,
    (k ≤ n)%nat ∧
    visited l' = visited l ++ take k (backward n) ∧
    examined l' = examined l ++ filter (other_frame s) (take k (backward n)) ∧
    processed_neighbors l' =
      (processed_neighbors l + length (filter (other_frame s) (take k (backward n))))%nat ∧
    (k = n ∨ ¬ (processed_neighbors l' < LC_NEIGHBORS)%nat) ∧
    (∀ j : nat, (j < k)%nat →
       (processed_neighbors l +
        length (filter (other_frame s) (take j (backward n))) < LC_NEIGHBORS)%nat).
Proof.
  revert l. induction n as [|m IH]; intros l; simpl.
  - intros [= <-]. exists 0%nat. simpl. rewrite !app_nil_r.
    split_and!; [lia|done|done|lia|by left|lia].
  - case_decide as Hlt.
    + destruct (visit s (Z.of_nat m) l) as [l1|] eqn:Hv; [|done]. simpl.
      intros Hloop. apply IH in Hloop as (k & Hk & Hvis & Hex & Hproc & Hstop & Hbefore).
      apply visit_Some in Hv as [Hv1 Hv].
      exists (S k). simpl.
      assert (Hj : ∀ j : nat, (j < S k)%nat →
        (processed_neighbors l +
         length (filter (other_frame s) (take j (Z.of_nat m :: backward m)))
         < LC_NEIGHBORS)%nat).
      { intros [|j] Hjk; simpl; [lia|]. specialize (Hbefore j ltac:(lia)).
        destruct Hv as [(Hf & _ & Hp & _)|(Hf & _ & Hp & _)].
        - rewrite filter_cons_True by done. simpl. lia.
        - rewrite filter_cons_False by done. lia. }
      destruct Hv as [(Hf & He & Hp & _)|(Hf & He & Hp & _)].
      * rewrite filter_cons_True by done. simpl.
        rewrite Hvis, Hv1, Hex, He, Hproc, Hp, <-!(assoc_L (++)). simpl.
        split_and!; [lia|done|done|lia| |done].
        destruct Hstop as [->|Hstop]; [by left|right]. lia.
      * rewrite filter_cons_False by done.
        rewrite Hvis, Hv1, Hex, He, Hproc, Hp, <-!(assoc_L (++)). simpl.
        split_and!; [lia|done|done|lia| |done].
        destruct Hstop as [->|Hstop]; [by left|right]. lia.
    + intros [= <-]. exists 0%nat. simpl. rewrite !app_nil_r.
      split_and!; [lia|done|done|lia|by right|lia].
Qed.

Lemma filter_take_S (P : Z → Prop) `{∀ x, Decision (P x)} (v : list Z) (j : nat) :
  (length (filter P (take (S j) v)) ≤ S (length (filter P (take j v))))%nat.
Proof.
  revert j. induction v as [|x v IH]; intros j; [simpl; lia|].
  destruct j as [|j].
  - simpl. rewrite take_0. destruct (decide (P x)).
    + rewrite filter_cons_True by done. simpl. lia.
    + rewrite filter_cons_False by done. simpl. lia.
  - specialize (IH j). rewrite !firstn_cons. destruct (decide (P x)).
    + rewrite !filter_cons_True by done. simpl. lia.
    + by rewrite !filter_cons_False.
Qed.

Lemma length_backward (n : nat) : length (backward n) = n.
Proof. induction n; simpl; congruence. Qed.

(** The loop returns when every neighbour of another frame it may reach
    has a defined contribution. *)
Lemma neighbors_loop_defined s (n : nat) (l : Locals) :
  (∀ j : nat, (j < n)%nat → other_frame s (Z.of_nat j) →
     is_Some (contribution (c_cluster_ s) (readCluster s (Z.of_nat j)))) →
  is_Some (neighbors_loop s n l).
Proof.
  revert l. induction n as [|m IH]; intros l Hdef; simpl; [eauto|].
  case_decide; [|eauto].
  assert (is_Some (visit s (Z.of_nat m) l)) as [l1 ->].
  { unfold visit. case_decide as Hf; [|eauto].
    destruct (Hdef m ltac:(lia) Hf) as [[kps pts] ->]. simpl. eauto. }
  simpl. apply IH. intros j Hj. apply Hdef. lia.
Qed.

Lemma searchInNeigborhood_defined s :
  (∀ j : nat, (j < Z.to_nat (id_ (c_cluster_ s)))%nat → other_frame s (Z.of_nat j) →
     is_Some (contribution (c_cluster_ s) (readCluster s (Z.of_nat j)))) →
  is_Some (searchInNeigborhood s).
Proof.
  intros Hdef. unfold searchInNeigborhood.
  destruct (neighbors_loop_defined s _ (mkLocals 0 [] [] [] []) Hdef) as [l ->].
  simpl. eauto.
Qed.

(** C5: the search visits the ids [id - 1], [id - 2], ... in this order;
    the neighbours handed to the descriptor matching are exactly the
    visited ones whose frame id differs from the frame id of the current
    cluster; only they are counted; the count never exceeds
    [LC_NEIGHBORS]; every visit starts with fewer than [LC_NEIGHBORS]
    counted; and the walk ends with [LC_NEIGHBORS] counted or with id 0
    visited. *)
Theorem searchInNeigborhood_walk s (r : Neighborhood) :
  searchInNeigborhood s = Some r →
  let l := locals r in
  let n := Z.to_nat (id_ (c_cluster_ s)) in
  ∃ k : nat,
    (k ≤ n)%nat ∧
    visited l = take k (backward n) ∧
    examined l = filter (other_frame s) (visited l) ∧
    Forall (λ j, frame_id_ (readCluster s j) ≠ frame_id_ (c_cluster_ s)) (examined l) ∧
    processed_neighbors l = length (examined l) ∧
    (processed_neighbors l ≤ LC_NEIGHBORS)%nat ∧
    (processed_neighbors l = LC_NEIGHBORS ∨ visited l = backward n) ∧
    (∀ j : nat, (j < k)%nat →
       (length (filter (other_frame s) (take j (visited l))) < LC_NEIGHBORS)%nat).
Proof.
  intros H l n. unfold searchInNeigborhood in H. fold n in H.
  destruct (neighbors_loop s n _) as [l0|] eqn:Hloop; [|done].
  simpl in H. injection H as <-. simpl in l. subst l.
  apply neighbors_loop_Some in Hloop
    as (k & Hk & Hvis & Hex & Hproc & Hstop & Hbefore).
  simpl in Hvis, Hex, Hproc, Hbefore.
  assert (Hle : (processed_neighbors l0 ≤ LC_NEIGHBORS)%nat).
  { rewrite Hproc. destruct k as [|k]; [simpl; lia|].
    pose proof (Hbefore k ltac:(lia)).
    pose proof (filter_take_S (other_frame s) (backward n) k). lia. }
  exists k. split_and!.
  - done.
  - done.
  - by rewrite Hex, Hvis.
  - rewrite Hex. apply Forall_forall. intros j Hj.
    by apply list_elem_of_In, list_elem_of_filter in Hj as [Hj _].
  - by rewrite Hproc, Hex.
  - done.
  - destruct Hstop as [->|Hstop]; [right|left; lia].
    rewrite Hvis. apply take_ge. by rewrite length_backward.
  - intros j Hj. rewrite Hvis, take_take.
    replace (j `min` k)%nat with j by lia. by apply Hbefore.
Qed.

(** C7 (amended): when the number of matches and the smaller descriptor
    count are below 2^24, where the floating-point computation is exact, a
    neighbour of another frame adds correspondences to the pool exactly
    when its match percentage
    100 * matches / min(current_descriptor_count, neighbor_descriptor_count),
    rounded to the nearest integer, exceeds 50, that is when the
    percentage is at least 50.5; then every match adds the 2-D point of
    the current cluster's keypoint [queryIdx] and the neighbour's 3-D
    point [trainIdx] moved by the neighbour's stored pose; otherwise the
    neighbour adds nothing. *)
Theorem visit_contribution s (j : Z) (l l' : Locals) :
  other_frame s j → visit s j l = Some l' →
  counts_exact (c_cluster_ s) (readCluster s j) →
  let c := c_cluster_ s in
  let neighbor := readCluster s j in
  let matches := ratioMatching (orb_ c) (orb_ neighbor) (Q2Qc (4 # 5)) in
  let d := Z.of_nat (length (orb_ c) `min` length (orb_ neighbor)) in
  ∃ pct kps pts,
    m_percentage (length matches) (length (orb_ c)) (length (orb_ neighbor)) = Some pct ∧
    pct = round_div (100 * Z.of_nat (length matches)) d ∧
    (50 < pct ↔ 101 * d ≤ 200 * Z.of_nat (length matches)) ∧
    matched_kp l' = matched_kp l ++ kps ∧
    matched_points l' = matched_points l ++ pts ∧
    (50 < pct →
       Forall2 (λ m x, ∃ k p, at_ (kp_ c) (queryIdx m) = Some k ∧
                              at_ (points_ neighbor) (trainIdx m) = Some p ∧
                              x = (pt k, transform_point (pose_ neighbor) p))
               matches (zip kps pts) ∧
       length kps = length matches ∧ length pts = length matches) ∧
    (¬ 50 < pct → kps = [] ∧ pts = []).
Proof.
  intros Hf Hv Hexact c neighbor matches d.
  apply visit_Some in Hv as [_ [(_ & _ & _ & kps & pts & Hc & Hk & Hp)|[Hn _]]];
    [|done].
  apply contribution_Some in Hc as (pct & Hpct & Hc).
  fold c neighbor matches in Hpct, Hc.
  exists pct, kps, pts. split; [done|].
  pose proof (m_percentage_Some _ _ _ _ Hexact Hpct) as [Hd Hiff].
  fold c neighbor matches d in Hd, Hiff.
  split_and!; [|done..| |].
  - rewrite m_percentage_exact in Hpct by exact Hexact. fold c neighbor d in Hpct.
    rewrite decide_False in Hpct by lia. by injection Hpct as <-.
  - intros Hover. destruct Hc as [(_ & pairs & Hm & -> & ->)|[? _]]; [|done].
    rewrite zip_fst_snd, !length_fmap.
    pose proof (length_mapM _ _ _ Hm) as Hlen. split_and!; [|done..].
    apply mapM_Some_1 in Hm. eapply Forall2_impl; [|exact Hm].
    intros m x. apply correspondence_Some.
  - intros Hunder. destruct Hc as [[? _]|(_ & -> & ->)]; done.
Qed.

(** C2 (amended): whatever the size of the pooled correspondence set, also
    empty or below 4, [searchInNeigborhood] calls the RANSAC solver once,
    on that set, and logs the number of inliers the solver returned; for a
    cluster with id 0 the pool is empty and the solver is called on the
    empty pool. *)
Theorem searchInNeigborhood_always_solves s :
  (∀ r, searchInNeigborhood s = Some r →
     pnp_calls r = [(matched_points (locals r), matched_kp (locals r))] ∧
     inliers r = solvePnPRansac (matched_points (locals r)) (matched_kp (locals r))
                   (camera_matrix_ (graph_ s)) MAX_INLIERS ∧
     log_line r = (processed_neighbors (locals r),
                   length (matched_points (locals r)), length (inliers r))) ∧
  (id_ (c_cluster_ s) ≤ 0 →
     ∃ r, searchInNeigborhood s = Some r ∧ pnp_calls r = [([], [])]).
Proof.
  split.
  - intros r. unfold searchInNeigborhood.
    destruct (neighbors_loop _ _ _) as [l|]; [|done]. by intros [= <-].
  - intros Hid. unfold searchInNeigborhood.
    replace (Z.to_nat (id_ (c_cluster_ s))) with 0%nat by lia. simpl. eauto.
Qed.

(** * Further properties of the engine *)

(** ** Storing and reading back *)

Lemma processNewCluster_Some s s' :
  processNewCluster s = Some s' →
  ∃ c queue,
    cluster_queue_ s = c :: queue ∧ c_cluster_ s' = c ∧ cluster_queue_ s' = queue ∧
    hash_ s' = (if isInitialized (hash_ s) then hash_ s else init (hash_ s) (sift_ c)) ∧
    hash_table_ s' = hash_table_ s ++ [(id_ c, getHash (hash_ s') (sift_ c))] ∧
    lc_found_ s' = lc_found_ s ∧ graph_ s' = graph_ s ∧
    execution_dir_ s' = <[id_ c := file_of c]> (execution_dir_ s).
Proof.
  unfold processNewCluster. destruct (cluster_queue_ s) as [|c queue]; [done|].
  intros [= <-]. exists c, queue. simpl. by split_and!.
Qed.

Lemma readCluster_file s (j : Z) c :
  execution_dir_ s !! j = Some (file_of c) → id_ c = j → readCluster s j = read_back c.
Proof. unfold readCluster, file_of, read_back. by intros -> <-. Qed.

Lemma readCluster_same_file s1 s2 (j : Z) :
  execution_dir_ s1 !! j = execution_dir_ s2 !! j → readCluster s1 j = readCluster s2 j.
Proof. unfold readCluster. by intros ->. Qed.

(** X1: the cluster that [processNewCluster] has just stored reads back
    with its id, frame id, keypoints, ORB descriptors and points, with its
    pose taken through the matrix conversion and back, and without SIFT
    descriptors; the read of every other id gives what it gave before. *)
Theorem processNewCluster_readCluster s s' :
  processNewCluster s = Some s' →
  readCluster s' (id_ (c_cluster_ s')) = read_back (c_cluster_ s') ∧
  ∀ j : Z, j ≠ id_ (c_cluster_ s') → readCluster s' j = readCluster s j.
Proof.
  intros (c & queue & _ & -> & _ & _ & _ & _ & _ & Hdir)%processNewCluster_Some.
  split.
  - apply readCluster_file; [|done]. rewrite Hdir. apply lookup_insert_eq.
  - intros j Hj. apply readCluster_same_file. rewrite Hdir.
    by apply lookup_insert_ne.
Qed.

(** X2: [processNewCluster] is defined exactly when
    [checkNewClusterInQueue] answers true, so the guard of [run] keeps
    [front()] away from an empty queue. *)
Theorem checkNewClusterInQueue_guards s :
  checkNewClusterInQueue s = true ↔ is_Some (processNewCluster s).
Proof.
  split.
  - intros (c & queue & Hq)%checkNewClusterInQueue_true.
    destruct (processNewCluster_front _ _ _ Hq) as (s' & -> & _). eauto.
  - intros [s' (c & queue & Hq & _)%processNewCluster_Some].
    unfold checkNewClusterInQueue. apply bool_decide_eq_true. by rewrite Hq.
Qed.

(** ** Schedules of enqueues and processing steps *)

Lemma exec_total (ops : list Op) s : ∃ done s', exec ops s = Some (done, s').
Proof.
  revert s. induction ops as [|[c|] ops IH]; intros s; simpl; [eauto|apply IH|].
  destruct (checkNewClusterInQueue s) eqn:Hchk; [|apply IH].
  apply checkNewClusterInQueue_true in Hchk as (c & queue & Hq).
  destruct (processNewCluster_front _ _ _ Hq) as (s1 & -> & _).
  destruct (IH s1) as (done & s' & He). simpl. rewrite He. simpl. eauto.
Qed.

Lemma exec_Some (ops : list Op) s (done : list Cluster) s' :
  exec ops s = Some (done, s') →
  done ++ cluster_queue_ s' = cluster_queue_ s ++ enqueued ops ∧
  (hash_table_ s').*1 = (hash_table_ s).*1 ++ (id_ <$> done) ∧
  lc_found_ s' = lc_found_ s ∧ graph_ s' = graph_ s ∧
  (∀ j : Z, j ∉ id_ <$> done → execution_dir_ s' !! j = execution_dir_ s !! j).
Proof.
  revert s done. induction ops as [|[c|] ops IH]; intros s done; simpl.
  - intros [= <- <-]. rewrite !app_nil_r. by split_and!.
  - intros (Hq & Ht & Hlc & Hg & Hdir)%IH. split_and!; try done.
    rewrite Hq. unfold enqueued. csimpl. by rewrite <-(assoc_L (++)).
  - destruct (checkNewClusterInQueue s) eqn:Hchk; [|apply IH].
    destruct (processNewCluster s) as [s1|] eqn:Hp; [|done]. simpl.
    destruct (exec ops s1) as [[done1 s2]|] eqn:He; [|done]. simpl.
    intros [= <- <-].
    apply IH in He as (Hq & Ht & Hlc & Hg & Hdir).
    apply processNewCluster_Some in Hp
      as (c & queue & Hs & Hc & Hq1 & _ & Ht1 & Hlc1 & Hg1 & Hdir1).
    split_and!.
    + simpl. rewrite Hq, Hq1, Hs, Hc. done.
    + rewrite Ht, Ht1, fmap_app, Hc. simpl. by rewrite <-(assoc_L (++)).
    + congruence.
    + congruence.
    + intros j Hj. rewrite fmap_cons, not_elem_of_cons in Hj.
      destruct Hj as [Hj1 Hj2]. rewrite Hdir by done. rewrite Hdir1.
      apply lookup_insert_ne. by rewrite <-Hc.
Qed.

(** X3: under every schedule the ids of the hash table are the ids it
    held at the start followed by the ids of the processed clusters, in the
    order of processing: one row per processed cluster, and no row is ever
    removed or moved. *)
Theorem hash_table_processing_order (ops : list Op) s :
  ∃ done s',
    exec ops s = Some (done, s') ∧
    (hash_table_ s').*1 = (hash_table_ s).*1 ++ (id_ <$> done) ∧
    length (hash_table_ s') = (length (hash_table_ s) + length done)%nat.
Proof.
  destruct (exec_total ops s) as (done & s' & He).
  exists done, s'. split; [done|].
  apply exec_Some in He as (_ & Ht & _). split; [done|].
  apply (f_equal length) in Ht.
  by rewrite length_app, !length_fmap in Ht.
Qed.

Lemma exec_hash (ops : list Op) s (done : list Cluster) s' :
  (∀ h d, isInitialized (init h d) = true) →
  exec ops s = Some (done, s') →
  hash_ s' = match done with
             | [] => hash_ s
             | c :: _ => if isInitialized (hash_ s) then hash_ s
                         else init (hash_ s) (sift_ c)
             end ∧
  hash_table_ s' =
    hash_table_ s ++ ((λ c, (id_ c, getHash (hash_ s') (sift_ c))) <$> done).
Proof.
  intros Hinit. revert s done. induction ops as [|[c|] ops IH]; intros s done; simpl.
  - intros [= <- <-]. by rewrite app_nil_r.
  - intros He. exact (IH (addClusterToQueue c s) done He).
  - destruct (checkNewClusterInQueue s) eqn:Hchk; [|apply IH].
    destruct (processNewCluster s) as [s1|] eqn:Hp; [|done]. simpl.
    destruct (exec ops s1) as [[done1 s2]|] eqn:He; [|done]. simpl.
    intros [= <- <-]. apply IH in He as [Hh Ht].
    apply processNewCluster_Some in Hp
      as (c & queue & _ & Hc & _ & Hh1 & Ht1 & _).
    assert (Hready : isInitialized (hash_ s1) = true).
    { rewrite Hh1. destruct (isInitialized (hash_ s)) eqn:E; [done|apply Hinit]. }
    assert (Hsame : hash_ s2 = hash_ s1).
    { rewrite Hh. destruct done1; [done|]. by rewrite Hready. }
    split.
    + by rewrite Hsame, Hh1, Hc.
    + rewrite Ht, Ht1, Hsame, Hc. simpl. by rewrite <-(assoc_L (++)).
Qed.

(** X4: when [init] leaves the hash engine initialised, the engine is
    initialised once, from the SIFT descriptors of the first cluster
    processed (or not at all when it was initialised before), and every
    row added to the hash table holds the hash that this one engine gives
    to the cluster's SIFT descriptors. *)
Theorem hash_initialised_once (ops : list Op) s :
  (∀ h d, isInitialized (init h d) = true) →
  ∃ done s',
    exec ops s = Some (done, s') ∧
    hash_ s' = match done with
               | [] => hash_ s
               | c :: _ => if isInitialized (hash_ s) then hash_ s
                           else init (hash_ s) (sift_ c)
               end ∧
    hash_table_ s' =
      hash_table_ s ++ ((λ c, (id_ c, getHash (hash_ s') (sift_ c))) <$> done).
Proof.
  intros Hinit. destruct (exec_total ops s) as (done & s' & He).
  exists done, s'. split; [done|]. by apply exec_hash with ops.
Qed.

(** X5: when the clusters waiting and enqueued have pairwise different
    ids, every cluster processed under a schedule can be read back at the
    end of it, as it was stored. *)
Theorem processed_clusters_read_back (ops : list Op) s :
  NoDup (id_ <$> (cluster_queue_ s ++ enqueued ops)) →
  ∃ done s',
    exec ops s = Some (done, s') ∧
    ∀ c, c ∈ done → readCluster s' (id_ c) = read_back c.
Proof.
  intros Hnd. destruct (exec_total ops s) as (done & s' & He).
  exists done, s'. split; [done|].
  assert (Hdone : NoDup (id_ <$> done)).
  { apply exec_Some in He as (Hq & _). rewrite <-Hq, fmap_app in Hnd.
    by apply list.NoDup_app in Hnd as (? & _). }
  clear Hnd. revert s done He Hdone.
  induction ops as [|[c0|] ops IH]; intros s done; simpl.
  - intros [= <- <-] _ c Hc. by apply elem_of_nil in Hc.
  - apply IH.
  - destruct (checkNewClusterInQueue s) eqn:Hchk; [|apply IH].
    destruct (processNewCluster s) as [s1|] eqn:Hp; [|done]. simpl.
    destruct (exec ops s1) as [[done1 s2]|] eqn:He; [|done]. simpl.
    intros [= <- <-] Hnd c Hc.
    rewrite fmap_cons in Hnd.
    apply list.NoDup_cons in Hnd as [Hfresh Hnd].
    apply elem_of_cons in Hc as [->|Hc]; [|by eapply IH].
    apply exec_Some in He as (_ & _ & _ & _ & Hdir).
    apply processNewCluster_Some in Hp as (c & queue & _ & Hc & _ & _ & _ & _ & _ & Hd1).
    apply readCluster_file; [|done].
    rewrite Hdir by done. rewrite Hd1, Hc. apply lookup_insert_eq.
Qed.

(** X6: after [finalize] every read returns the default cluster; and in
    a run that starts with [run_init] the only ids that do not read as the
    default cluster are those of clusters processed in this run, whatever
    files an earlier run left behind. *)
Theorem reads_after_clearing :
  (∀ s (j : Z), readCluster (finalize s) j = Cluster_default) ∧
  (∀ (ops : list Op) s, ∃ done s',
     exec ops (run_init s) = Some (done, s') ∧
     ∀ j : Z, j ∉ id_ <$> done → readCluster s' j = Cluster_default).
Proof.
  split.
  - intros s j. unfold readCluster, finalize. simpl. by rewrite lookup_empty.
  - intros ops s. destruct (exec_total ops (run_init s)) as (done & s' & He).
    exists done, s'. split; [done|]. intros j Hj.
    apply exec_Some in He as (_ & _ & _ & _ & Hdir).
    unfold readCluster. rewrite Hdir by done. simpl. by rewrite lookup_empty.
Qed.

(** ** The loop of [run] *)

Lemma run_step_Some s s' :
  run_step s = Some s' →
  (checkNewClusterInQueue s = false ∧ s' = s) ∨
  (checkNewClusterInQueue s = true ∧ processNewCluster s = Some s').
Proof.
  unfold run_step. destruct (checkNewClusterInQueue s); [|intros [= <-]; by left].
  destruct (processNewCluster s) as [s1|]; [|done]. simpl.
  destruct (searchInNeigborhood s1); [|done]. simpl.
  intros ->%searchByHash_Some. by right.
Qed.

Lemma run_loop_exec (ops : list Op) s s' :
  run_loop ops s = Some s' → ∃ done, exec ops s = Some (done, s').
Proof.
  revert s. induction ops as [|[c|] ops IH]; intros s; simpl.
  - intros [= <-]. eauto.
  - apply IH.
  - destruct (run_step s) as [s1|] eqn:Hstep; [|done]. simpl. intros Hloop.
    apply IH in Hloop as [done He].
    apply run_step_Some in Hstep as [[-> ->]|[-> ->]]; [eauto|].
    simpl. rewrite He. simpl. eauto.
Qed.

(** X7: the two searches never change the engine. A run of the loop that
    returns leaves the engine that the same schedule of
    [addClusterToQueue] and guarded [processNewCluster] calls alone
    leaves; in particular no schedule adds a record to [lc_found_] or
    touches the graph. *)
Theorem run_loop_only_processes (ops : list Op) s s' :
  run_loop ops s = Some s' →
  ∃ done, exec ops s = Some (done, s') ∧
          lc_found_ s' = lc_found_ s ∧ graph_ s' = graph_ s.
Proof.
  intros [done He]%run_loop_exec. exists done. split; [done|].
  by apply exec_Some in He as (_ & _ & ? & ? & _).
Qed.

(** X8: when the ids in the hash table are their positions and the
    cluster at the front of the queue carries the next id, then after
    [processNewCluster] the ids are still the positions, the row read at
    [hash_table_[id]] is the cluster's own row, and [searchByHash]
    returns. *)
Theorem sequential_ids_own_row s c (queue : list Cluster) :
  (hash_table_ s).*1 = seqZ 0 (Z.of_nat (length (hash_table_ s))) →
  cluster_queue_ s = c :: queue →
  id_ c = Z.of_nat (length (hash_table_ s)) →
  ∃ s', processNewCluster s = Some s' ∧
        (hash_table_ s').*1 = seqZ 0 (Z.of_nat (length (hash_table_ s'))) ∧
        at_ (hash_table_ s') (id_ c) = Some (id_ c, getHash (hash_ s') (sift_ c)) ∧
        searchByHash s' = Some s'.
Proof.
  intros Hseq Hq Hid.
  destruct (processNewCluster_front _ _ _ Hq) as (s' & Hp & Hc & _).
  exists s'. split; [done|].
  apply processNewCluster_Some in Hp as (c' & queue' & Hq' & Hc' & _ & _ & Ht & _).
  assert (c' = c) as -> by congruence.
  assert (Hlen : length (hash_table_ s') = S (length (hash_table_ s))).
  { rewrite Ht, length_app. simpl. lia. }
  assert (Hrow : at_ (hash_table_ s') (id_ c)
                 = Some (id_ c, getHash (hash_ s') (sift_ c))).
  { unfold at_. rewrite decide_True by lia.
    replace (Z.to_nat (id_ c)) with (length (hash_table_ s)) by lia.
    rewrite Ht. by apply list_lookup_middle. }
  split_and!.
  - rewrite Hlen, seqZ_S, <-Hseq, Ht, fmap_app. simpl. by rewrite Hid.
  - done.
  - assert (is_Some (getCandidates s' (id_ (c_cluster_ s')))) as [cands Hg].
    { apply getCandidates_is_Some. right. rewrite Hc, Hlen. lia. }
    unfold searchByHash. rewrite Hg. simpl. by case_decide.
Qed.

(** ** The candidates as a selection of scored rows *)

Lemma omap_eligible s cluster_id (hash_q : list Qc) (rows : list (Z * list Qc)) :
  omap (λ row, if decide (eligible s cluster_id row)
               then Some (scored s hash_q row) else None) rows
  = scored s hash_q <$> filter (eligible s cluster_id) rows.
Proof.
  induction rows as [|row rows IH]; [done|]. csimpl. case_decide.
  - rewrite filter_cons_True by done. csimpl. by rewrite IH.
  - by rewrite filter_cons_False.
Qed.

Lemma hash_matching_row s cluster_id (hash_q : list Qc) (i : nat) row :
  hash_table_ s !! i = Some row →
  hash_matching s cluster_id (no_candidates (lc_found_ s) cluster_id) hash_q i
  = if decide (eligible s cluster_id row) then Some (scored s hash_q row) else None.
Proof.
  intros Hrow. unfold hash_matching.
  pose proof (lookup_lt_Some _ _ _ Hrow).
  rewrite decide_False by lia. rewrite Hrow. destruct row as [id hash_t]. simpl.
  unfold eligible, scored. simpl. repeat case_decide; tauto || done.
Qed.

Lemma all_matchings_scanned s cluster_id (hash_q : list Qc) :
  omap (hash_matching s cluster_id (no_candidates (lc_found_ s) cluster_id) hash_q)
       (seq 0 (length (hash_table_ s) - LC_NEIGHBORS - 1))
  = scored s hash_q <$> filter (eligible s cluster_id) (scanned s).
Proof.
  rewrite <-omap_eligible. apply list_omap_ext. unfold scanned.
  apply Forall2_same_length_lookup_2.
  - rewrite length_seq, length_take. lia.
  - intros k i row [-> Hk]%lookup_seq Hrow. simpl.
    rewrite lookup_take_lt in Hrow by done. by apply hash_matching_row.
Qed.

Lemma getCandidates_Some_inv s cluster_id cands :
  getCandidates s cluster_id = Some cands →
  ((length (hash_table_ s) ≤ LC_NEIGHBORS)%nat ∧ cands = []) ∨
  ((LC_NEIGHBORS < length (hash_table_ s))%nat ∧
   ∃ hash_q, snd <$> at_ (hash_table_ s) cluster_id = Some hash_q ∧
     cands = take 5 (sort sortByMatching
                       (scored s hash_q <$> filter (eligible s cluster_id) (scanned s)))).
Proof.
  unfold getCandidates. case_decide as Hlen; [intros [= <-]; by left|].
  destruct (at_ (hash_table_ s) cluster_id) as [[q hash_q]|]; [|done]. simpl.
  intros [= <-]. right. split; [lia|]. exists hash_q. split; [done|].
  rewrite all_matchings_scanned. case_decide as H5; [|done].
  rewrite !take_ge; [done|lia..].
Qed.

(** X9: the candidate list holds, up to its order, the scored eligible
    rows among the first [size - LC_NEIGHBORS - 1] rows of the table: each
    candidate is such a row paired with its similarity to the hash read at
    [hash_table_[cluster_id]], and a row is left out only when five
    candidates are returned. *)
Theorem getCandidates_scored_rows s cluster_id cands :
  getCandidates s cluster_id = Some cands →
  ∃ (hash_q : list Qc) (rest : list (Z * Qc)),
    ((LC_NEIGHBORS < length (hash_table_ s))%nat →
     snd <$> at_ (hash_table_ s) cluster_id = Some hash_q) ∧
    cands ++ rest ≡ₚ scored s hash_q <$> filter (eligible s cluster_id) (scanned s) ∧
    (rest = [] ∨ length cands = 5%nat).
Proof.
  intros [[Hlen ->]|(Hlen & hash_q & Hq & ->)]%getCandidates_Some_inv.
  - exists [], []. split; [lia|]. split; [|by left].
    unfold scanned. by replace (length (hash_table_ s) - LC_NEIGHBORS - 1)%nat
      with 0%nat by lia.
  - set (all := scored s hash_q <$> filter (eligible s cluster_id) (scanned s)).
    exists hash_q, (drop 5 (sort sortByMatching all)). split; [done|].
    split; [by rewrite take_drop, sort_Permutation|].
    destruct (decide (length (sort sortByMatching all) ≤ 5)%nat).
    + left. by apply drop_ge.
    + right. rewrite length_take. lia.
Qed.

(** X10: when the comparator is a strict weak ordering, as [std::sort]
    requires, the candidates are sorted by it and are the best scored rows:
    no scored eligible row that was left out comes before a candidate. *)
Theorem getCandidates_keeps_the_best s cluster_id cands (hash_q : list Qc) :
  (∀ a b, ¬ sortByMatching b a ∨ ¬ sortByMatching a b) →
  (∀ a b d, ¬ sortByMatching b a → ¬ sortByMatching d b → ¬ sortByMatching d a) →
  getCandidates s cluster_id = Some cands →
  snd <$> at_ (hash_table_ s) cluster_id = Some hash_q →
  StronglySorted (λ a b, ¬ sortByMatching b a) cands ∧
  ∀ x y, x ∈ scored s hash_q <$> filter (eligible s cluster_id) (scanned s) →
         x ∉ cands → y ∈ cands → ¬ sortByMatching x y.
Proof.
  intros Hasym Htrans Hc Hq.
  apply getCandidates_Some_inv in Hc as [[_ ->]|(_ & hash_q' & Hq' & ->)].
  { split; [constructor|]. intros x y _ _ Hin. by apply elem_of_nil in Hin. }
  assert (hash_q' = hash_q) as -> by congruence.
  set (all := scored s hash_q <$> filter (eligible s cluster_id) (scanned s)).
  set (R := λ a b : Z * Qc, ¬ sortByMatching b a).
  assert (Total R) by (intros a b; apply Hasym).
  assert (Transitive R) by (intros a b d; apply Htrans).
  pose proof (StronglySorted_merge_sort R all) as Hsorted.
  change (StronglySorted R (sort sortByMatching all)) in Hsorted.
  rewrite <-(take_drop 5 (sort sortByMatching all)) in Hsorted.
  split; [by eapply StronglySorted_app_1_l|].
  intros x y Hx Hout Hin.
  assert (Hdrop : x ∈ drop 5 (sort sortByMatching all)).
  { rewrite <-(sort_Permutation sortByMatching all),
      <-(take_drop 5 (sort sortByMatching all)) in Hx.
    by apply elem_of_app in Hx as [?|?]. }
  exact (StronglySorted_app_1_elem_of R _ _ y x Hsorted Hin Hdrop).
Qed.

(** ** The pool of the neighbourhood search *)

Lemma contribution_same_length c neighbor (kps : list Point2f) (pts : list Point3f) :
  contribution c neighbor = Some (kps, pts) → length kps = length pts.
Proof.
  intros (pct & _ & [(_ & pairs & _ & -> & ->)|(_ & -> & ->)])%contribution_Some.
  - by rewrite !length_fmap.
  - done.
Qed.

Lemma neighbors_loop_pool s (n : nat) (l l' : Locals) :
  neighbors_loop s n l = Some l' →
  ∃ (js : list Z) (cs : list (list Point2f * list Point3f)),
    examined l' = examined l ++ js ∧
    Forall2 (λ j kp_pts,
               contribution (c_cluster_ s) (readCluster s j) = Some kp_pts) js cs ∧
    matched_kp l' = matched_kp l ++ concat cs.*1 ∧
    matched_points l' = matched_points l ++ concat cs.*2.
Proof.
  revert l. induction n as [|m IH]; intros l; simpl.
  { intros [= <-]. exists [], []. simpl. rewrite !app_nil_r. by split_and!. }
  case_decide.
  - destruct (visit s (Z.of_nat m) l) as [l1|] eqn:Hv; [|done]. simpl.
    intros (js & cs & He & Hcs & Hk & Hp)%IH.
    apply visit_Some in Hv as [_ [(_ & He1 & _ & kps & pts & Hc & Hk1 & Hp1)
                                  |(_ & He1 & _ & Hk1 & Hp1)]].
    + exists (Z.of_nat m :: js), ((kps, pts) :: cs). simpl.
      rewrite He, He1, Hk, Hk1, Hp, Hp1, <-!(assoc_L (++)).
      split_and!; [done| |done..]. by constructor.
    + exists js, cs. by rewrite He, He1, Hk, Hk1, Hp, Hp1.
  - intros [= <-]. exists [], []. simpl. rewrite !app_nil_r. by split_and!.
Qed.

Lemma searchInNeigborhood_Some s (r : Neighborhood) :
  searchInNeigborhood s = Some r →
  neighbors_loop s (Z.to_nat (id_ (c_cluster_ s))) (mkLocals 0 [] [] [] [])
    = Some (locals r) ∧
  pnp_calls r = [(matched_points (locals r), matched_kp (locals r))].
Proof.
  unfold searchInNeigborhood.
  destruct (neighbors_loop _ _ _) as [l|]; [|done]. by intros [= <-].
Qed.

(** X11: the pool is the contributions of the examined neighbours, in the
    order in which they were examined: nothing else is pushed, and nothing
    pushed is dropped or reordered. *)
Theorem pool_is_the_contributions s (r : Neighborhood) :
  searchInNeigborhood s = Some r →
  ∃ cs : list (list Point2f * list Point3f),
    Forall2 (λ j kp_pts,
               contribution (c_cluster_ s) (readCluster s j) = Some kp_pts)
            (examined (locals r)) cs ∧
    matched_kp (locals r) = concat cs.*1 ∧
    matched_points (locals r) = concat cs.*2.
Proof.
  intros [Hloop _]%searchInNeigborhood_Some.
  apply neighbors_loop_pool in Hloop as (js & cs & He & Hcs & Hk & Hp).
  simpl in He, Hk, Hp. exists cs. by rewrite He, Hk, Hp.
Qed.

(** X12: the two vectors handed to [solvePnPRansac] always have the same
    length: every 3-D point of the pool has its 2-D keypoint. *)
Theorem pool_vectors_same_length s (r : Neighborhood) :
  searchInNeigborhood s = Some r →
  length (matched_kp (locals r)) = length (matched_points (locals r)) ∧
  Forall (λ call, length call.1 = length call.2) (pnp_calls r).
Proof.
  intros [Hloop Hcall]%searchInNeigborhood_Some.
  assert (Hlen : length (matched_kp (locals r)) = length (matched_points (locals r))).
  { apply neighbors_loop_pool in Hloop as (js & cs & _ & Hcs & -> & ->). simpl.
    clear -Hcs. induction Hcs as [|j [kps pts] js cs Hc _ IH]; [done|].
    csimpl. rewrite !length_app, IH. f_equal.
    by apply contribution_same_length in Hc. }
  split; [done|]. rewrite Hcall. by repeat constructor.
Qed.

Lemma filter_take_le (P : Z → Prop) `{∀ x, Decision (P x)} (v : list Z) (k : nat) :
  (length (filter P (take k v)) ≤ length (filter P v))%nat.
Proof. rewrite <-(take_drop k v) at 2. rewrite list.filter_app, length_app. lia. Qed.

(** X13: the number of neighbours examined is [LC_NEIGHBORS], or the
    number of earlier ids whose cluster reads with another frame id when
    there are fewer of them. *)
Theorem processed_neighbors_count s (r : Neighborhood) :
  searchInNeigborhood s = Some r →
  processed_neighbors (locals r) =
    (LC_NEIGHBORS `min`
     length (filter (other_frame s) (backward (Z.to_nat (id_ (c_cluster_ s))))))%nat.
Proof.
  intros [Hloop _]%searchInNeigborhood_Some.
  set (n := Z.to_nat (id_ (c_cluster_ s))) in *.
  apply neighbors_loop_Some in Hloop as (k & Hk & _ & _ & Hproc & Hstop & Hbefore).
  simpl in Hproc, Hbefore.
  pose proof (filter_take_le (other_frame s) (backward n) k) as Hle.
  assert (Hmax : (processed_neighbors (locals r) ≤ LC_NEIGHBORS)%nat).
  { rewrite Hproc. destruct k as [|k]; [simpl; lia|].
    pose proof (Hbefore k ltac:(lia)).
    pose proof (filter_take_S (other_frame s) (backward n) k). lia. }
  destruct Hstop as [->|Hstop].
  - rewrite take_ge in Hproc by (by rewrite length_backward). lia.
  - lia.
Qed.

Lemma neighbors_loop_same_frame s (n : nat) (l : Locals) :
  (processed_neighbors l < LC_NEIGHBORS)%nat →
  (∀ j : nat, (j < n)%nat → ¬ other_frame s (Z.of_nat j)) →
  neighbors_loop s n l =
    Some (mkLocals (processed_neighbors l) (matched_kp l) (matched_points l)
            (visited l ++ backward n) (examined l)).
Proof.
  revert l. induction n as [|m IH]; intros l Hlt Hsame; simpl.
  - rewrite app_nil_r. by destruct l.
  - rewrite decide_True by done. unfold visit.
    rewrite decide_False by (apply Hsame; lia). simpl.
    rewrite IH; simpl; [|done|intros j Hj; apply Hsame; lia].
    by rewrite <-(assoc_L (++)).
Qed.

(** X14: when [LC_NEIGHBORS] is not 0 and every earlier id reads with the
    frame id of the current cluster, the search reads every id from
    [id - 1] down to 0, examines none, and calls the solver on the empty
    pool. *)
Theorem search_among_same_frame s :
  LC_NEIGHBORS ≠ 0%nat →
  (∀ j : Z, 0 ≤ j < id_ (c_cluster_ s) → ¬ other_frame s j) →
  ∃ r, searchInNeigborhood s = Some r ∧
       visited (locals r) = backward (Z.to_nat (id_ (c_cluster_ s))) ∧
       examined (locals r) = [] ∧
       processed_neighbors (locals r) = 0%nat ∧
       pnp_calls r = [([], [])].
Proof.
  intros HLC Hsame. unfold searchInNeigborhood.
  rewrite neighbors_loop_same_frame; simpl; [eauto 10|lia|].
  intros j Hj. apply Hsame. lia.
Qed.

Lemma contribution_defined c neighbor :
  orb_ c ≠ [] → orb_ neighbor ≠ [] → counts_exact c neighbor →
  Forall (in_range c neighbor)
         (ratioMatching (orb_ c) (orb_ neighbor) (Q2Qc (4 # 5))) →
  is_Some (contribution c neighbor).
Proof.
  intros Hc Hn Hexact Hrange. unfold contribution.
  rewrite m_percentage_exact by exact Hexact.
  rewrite decide_False
    by (destruct (orb_ c), (orb_ neighbor); simpl in *; done || lia).
  simpl. case_decide; [|eauto].
  assert (is_Some (mapM (correspondence (kp_ c) neighbor)
             (ratioMatching (orb_ c) (orb_ neighbor) (Q2Qc (4 # 5))))) as [pairs ->].
  { apply mapM_is_Some_2. eapply Forall_impl; [|exact Hrange].
    intros m [Hq Ht]. simpl. unfold correspondence.
    apply at_is_Some in Hq as [k ->]. apply at_is_Some in Ht as [p ->].
    simpl. eauto. }
  simpl. eauto.
Qed.

(** X15: the search makes no out-of-bounds read and no undefined
    conversion on its way to the call of [solvePnPRansac], with which it
    ends (so it returns whenever the solver does), when the current
    cluster has descriptors and every earlier cluster of another frame
    reads with descriptors, has counts below 2^24, and gets matches whose
    indices lie inside the keypoints of the current cluster and inside its
    own points. *)
Theorem searchInNeigborhood_free_of_undefined s :
  orb_ (c_cluster_ s) ≠ [] →
  (∀ j : Z, 0 ≤ j < id_ (c_cluster_ s) → other_frame s j →
     orb_ (readCluster s j) ≠ [] ∧
     counts_exact (c_cluster_ s) (readCluster s j) ∧
     Forall (in_range (c_cluster_ s) (readCluster s j))
       (ratioMatching (orb_ (c_cluster_ s)) (orb_ (readCluster s j)) (Q2Qc (4 # 5)))) →
  ∃ r, searchInNeigborhood s = Some r ∧
       pnp_calls r = [(matched_points (locals r), matched_kp (locals r))].
Proof.
  intros Hc Hall.
  assert (is_Some (searchInNeigborhood s)) as [r Hr].
  { apply searchInNeigborhood_defined. intros j Hj Hf.
    destruct (Hall (Z.of_nat j) ltac:(lia) Hf) as (Hn & Hexact & Hrange).
    by apply contribution_defined. }
  exists r. split; [done|]. by apply searchInNeigborhood_Some in Hr as [_ ?].
Qed.

(** X16: for counts below 2^24 the match percentage, when defined, is
    the nearest integer to [100 * matches / min(size_c, size_n)] (within
    one half of it), it is never negative and fits an [int], and it is at
    most 100 when there are no more matches than descriptors in the
    smaller set. *)
Theorem m_percentage_nearest (matches size_c size_n : nat) (pct : Z) :
  float_exact (Z.of_nat matches) (Z.of_nat (size_c `min` size_n)) →
  m_percentage matches size_c size_n = Some pct →
  let d := Z.of_nat (size_c `min` size_n) in
  let m := Z.of_nat matches in
  0 < d ∧ 2 * d * pct - d ≤ 200 * m < 2 * d * pct + d ∧
  0 ≤ pct < 2 ^ 31 ∧ (m ≤ d → pct ≤ 100).
Proof.
  intros Hexact H d m. pose proof Hexact as [Hm Hd'].
  rewrite m_percentage_exact in H by done. fold d in H.
  case_decide as Hd; [done|]. injection H as <-. fold m.
  assert (0 < d) by lia. unfold round_div.
  pose proof (Z.mul_div_le (2 * (100 * m) + d) (2 * d) ltac:(lia)).
  pose proof (Z.mul_succ_div_gt (2 * (100 * m) + d) (2 * d) ltac:(lia)).
  split_and!; [done|lia|lia| | |].
  - apply Z.div_pos; lia.
  - apply Z.div_lt_upper_bound; [lia|]. change (2 ^ 31) with 2147483648. lia.
  - intros Hle. apply Z.lt_succ_r, Z.div_lt_upper_bound; lia.
Qed.

(** ** The floating-point computation beside the exact one *)

(** Where a count exceeds 2^24 the two part: 16777413 matches for
    33222600 descriptors are exactly 50.5 %, the first cast loses the last
    bit, and the percentage is 50. *)
Example m_percentage_float_beyond :
  m_percentage_float 16777413 33222600 = Some 50 ∧
  round_div (100 * 16777413) 33222600 = 51 ∧
  ¬ float_exact 16777413 33222600.
Proof. split_and!; [vm_compute; reflexivity..|]. intros [_ H]. revert H. by vm_compute. Qed.

(** With no descriptor the floating-point quotient is not a number or
    infinite. *)
Example m_percentage_float_no_descriptor :
  m_percentage_float 0 0 = None ∧ m_percentage_float 3 0 = None.
Proof. split; vm_compute; reflexivity. Qed.

(** On every pair of counts up to 101 the floating-point computation gives
    the exact quotient rounded to the nearest integer. *)
Example m_percentage_float_small :
  Forall (λ d, Forall (λ m, m_percentage_float m d
                            = Some (round_div (100 * m) d)) (seqZ 0 102))
         (seqZ 1 101).
Proof. apply (bool_decide_unpack _). vm_compute. exact I. Qed.

End Properties.

(** * Concrete runs *)

Section Runs.
Import Toy.

Lemma getCandidates_never_own_id_witness :
  getCandidates (ingested 11) 10 = Some top5_of_10 ∧ 10 ∉ top5_of_10.*1.
Proof.
  assert (H : getCandidates (ingested 11) 10 = Some top5_of_10)
    by (vm_compute; reflexivity).
  split; [exact H|]. exact (getCandidates_never_own_id (ingested 11) 10 top5_of_10 H).
Defined.

Lemma getCandidates_excludes_closed_pairs_witness :
  (10 = 10 → 4 ∉ top4_of_10.*1) ∧ (10 = 4 → 10 ∉ top4_of_10.*1).
Proof.
  apply (getCandidates_excludes_closed_pairs closed_10_4 10 top4_of_10 10 4).
  - vm_compute. reflexivity.
  - simpl. apply list_elem_of_singleton. reflexivity.
Defined.

Lemma getCandidates_short_table_witness : getCandidates (ingested 6) 5 = Some [].
Proof.
  apply (getCandidates_short_table (ingested 6) 5).
  - vm_compute. lia.
  - right. vm_compute. eauto.
Defined.

Lemma getCandidates_top5_best_first_witness :
  (length top5_of_10 ≤ 5)%nat ∧ StronglySorted best_first top5_of_10 ∧
  (10 = id_ (c_cluster_ (ingested 11)) → top5_of_10 = [] →
   searchByHash (ingested 11) = Some (ingested 11)).
Proof.
  apply (getCandidates_top5_best_first (ingested 11) 10 top5_of_10).
  - intros d1 d2. reflexivity.
  - vm_compute. reflexivity.
Defined.

Lemma searchByHash_confirms_nothing_witness :
  searchByHash (ingested 11) = Some (ingested 11).
Proof.
  apply (searchByHash_confirms_nothing (ingested 11) top5_of_10).
  vm_compute. reflexivity.
Defined.

Lemma readCluster_missing_or_unopenable_witness :
  readCluster_call 42 (ingested 11) = (Cluster_default, ingested 11).
Proof.
  apply (readCluster_missing_or_unopenable (ingested 11) 42).
  left. vm_compute. reflexivity.
Defined.

Lemma searchInNeigborhood_walk_witness :
  searchInNeigborhood (ingested 11) = Some walk_of_10 ∧
  ∃ k : nat, (k ≤ 10)%nat ∧ visited (locals walk_of_10) = take k (backward 10) ∧
             processed_neighbors (locals walk_of_10) = LC_NEIGHBORS.
Proof.
  assert (H : searchInNeigborhood (ingested 11) = Some walk_of_10)
    by (vm_compute; reflexivity).
  split; [exact H|].
  destruct (searchInNeigborhood_walk (ingested 11) walk_of_10 H)
    as (k & Hk & Hvis & _).
  exists k. split; [exact Hk|]. split; [exact Hvis|]. reflexivity.
Defined.

Lemma visit_contribution_witness :
  ∃ kps pts, [100; 102] = [] ++ kps ∧ [9; 9] = [] ++ pts ∧ length kps = 2%nat.
Proof.
  destruct (visit_contribution (ingested 11) 9 (@mkLocals vision 0 [] [] [] [])
              (@mkLocals vision 1 [100; 102] [9; 9] [9] [9]))
    as (pct & kps & pts & Hpct & _ & _ & Hk & Hp & Hover & _).
  - vm_compute. discriminate.
  - vm_compute. reflexivity.
  - vm_compute. split; reflexivity.
  - exists kps, pts. split; [exact Hk|]. split; [exact Hp|].
    apply Hover. vm_compute in Hpct. injection Hpct as <-. reflexivity.
Defined.

Lemma searchInNeigborhood_always_solves_witness :
  ∃ r, searchInNeigborhood (ingested 1) = Some r ∧ pnp_calls r = [([], [])].
Proof.
  apply (searchInNeigborhood_always_solves (ingested 1)).
  vm_compute. discriminate.
Defined.

Lemma cluster_queue_fifo_witness :
  ∃ done s',
    exec [Enqueue (cluster 0); Enqueue (cluster 1); Process; Enqueue (cluster 2);
          Process; Process; Process] start = Some (done, s') ∧
    done ++ cluster_queue_ s' = [] ++ [cluster 0; cluster 1; cluster 2].
Proof.
  apply (proj2 (proj2 cluster_queue_fifo)
           [Enqueue (cluster 0); Enqueue (cluster 1); Process; Enqueue (cluster 2);
            Process; Process; Process] start).
Defined.

(** ** Where the code departs from the claims *)

(** C1 as stated fails: cluster 10 has five candidates, and whatever their
    inlier counts [searchByHash] adds no record to [lc_found_] (and no
    edge to the graph). *)
Lemma searchByHash_confirms_counterexample :
  ¬ (∀ (s : @LoopClosing vision) (cands : list (Z * Qc))
       (inliers_of : Z → Z) (min_inliers : Z),
       getCandidates s (id_ (c_cluster_ s)) = Some cands →
       (∃ x, x ∈ cands ∧ min_inliers ≤ inliers_of x.1) →
       ∃ s', searchByHash s = Some s' ∧
             length (lc_found_ s') = S (length (lc_found_ s)) ∧
             length (edges_ (graph_ s')) = S (length (edges_ (graph_ s)))).
Proof.
  intros H.
  destruct (H (ingested 11) top5_of_10 (λ _, 100) 1) as (s' & Hs & Hlen & _).
  - vm_compute. reflexivity.
  - exists (4, Qc_of_Z 3). split; [by left|]. simpl. lia.
  - apply searchByHash_Some in Hs as ->. lia.
Qed.

(** C2 as stated fails: for the first cluster the pool is empty, and the
    solver is called on it all the same. *)
Lemma searchInNeigborhood_skips_counterexample :
  searchInNeigborhood (ingested 1) = Some walk_of_0 ∧
  ¬ (∀ (s : @LoopClosing vision) (r : Neighborhood),
       searchInNeigborhood s = Some r →
       (length (matched_points (locals r)) < 4)%nat →
       pnp_calls r = []).
Proof.
  assert (Hrun : searchInNeigborhood (ingested 1) = Some walk_of_0)
    by (vm_compute; reflexivity).
  split; [done|]. intros H.
  specialize (H (ingested 1) walk_of_0 Hrun ltac:(simpl; lia)). discriminate.
Qed.

(** C3 as stated fails twice. With [LC_NEIGHBORS + 1 = 6] rows, a query
    for id 9 reads [hash_table_[9]] outside the table. And with clusters
    0..10 ingested and [LC_NEIGHBORS = 5] the search for id 10 returns five
    candidates; there the side condition of the scenario cannot be met
    (10 > 11 - 5 - 1), and where it is met, after clusters 0..15, the
    search for id 10 returns five candidates as well. *)
Lemma getCandidates_scenario_counterexample :
  ¬ (∀ (s : @LoopClosing vision) (cluster_id : Z),
       (length (hash_table_ s) ≤ LC_NEIGHBORS + 1)%nat →
       getCandidates s cluster_id = Some []) ∧
  ((hash_table_ (ingested 11)).*1 = seqZ 0 11 ∧ LC_NEIGHBORS = 5%nat ∧
   10 > Z.of_nat (length (hash_table_ (ingested 11))) - Z.of_nat LC_NEIGHBORS - 1 ∧
   getCandidates (ingested 11) 10 = Some top5_of_10) ∧
  ((hash_table_ (ingested 16)).*1 = seqZ 0 16 ∧
   ¬ 10 > Z.of_nat (length (hash_table_ (ingested 16))) - Z.of_nat LC_NEIGHBORS - 1 ∧
   getCandidates (ingested 16) 10 = Some top5_of_10_after_16).
Proof.
  split_and!.
  - intros H. specialize (H (ingested 6) 9 ltac:(vm_compute; lia)).
    vm_compute in H. discriminate.
  - vm_compute. reflexivity.
  - reflexivity.
  - vm_compute. reflexivity.
  - vm_compute. reflexivity.
  - vm_compute. reflexivity.
  - vm_compute. discriminate.
  - vm_compute. reflexivity.
Qed.

(** C7 as stated fails. With 51 matches for 101 descriptors the percentage
    is 50.495: it exceeds 50 and the neighbour contributes nothing. Read
    with an integer quotient the claim fails as well: with 101 matches for
    200 descriptors the quotient is 50 and the neighbour contributes its
    101 matches. *)
Lemma contribution_over_50_counterexample :
  (other_frame half_101_state 0 ∧
   matches_of half_101_state 0 = 51%nat ∧ smaller_of half_101_state 0 = 101%nat ∧
   (Qc_of_Z 50 < Qc_of_Z (100 * 51) / Qc_of_Z 101)%Qc ∧
   visit half_101_state 0 (mkLocals 0 [] [] [] []) = Some (mkLocals 1 [] [] [0] [0])) ∧
  (other_frame half_200_state 0 ∧
   matches_of half_200_state 0 = 101%nat ∧ smaller_of half_200_state 0 = 200%nat ∧
   (100 * 101) `div` 200 = 50 ∧
   (λ l', (length (matched_kp l'), length (matched_points l'))) <$>
     visit half_200_state 0 (mkLocals 0 [] [] [] []) = Some (101%nat, 101%nat)).
Proof.
  split; split_and!.
  - vm_compute. discriminate.
  - vm_compute. reflexivity.
  - vm_compute. reflexivity.
  - vm_compute. reflexivity.
  - vm_compute. reflexivity.
  - vm_compute. discriminate.
  - vm_compute. reflexivity.
  - vm_compute. reflexivity.
  - reflexivity.
  - vm_compute. reflexivity.
Qed.

(** ** Runs for the further properties *)

Lemma processNewCluster_readCluster_witness :
  readCluster stored_0 (id_ (c_cluster_ stored_0)) = read_back (c_cluster_ stored_0) ∧
  ∀ j : Z, j ≠ id_ (c_cluster_ stored_0) → readCluster stored_0 j = readCluster queued_0 j.
Proof.
  apply (processNewCluster_readCluster queued_0 stored_0). reflexivity.
Defined.

Lemma hash_initialised_once_witness :
  ∃ done s',
    exec schedule_3 start = Some (done, s') ∧
    hash_ s' = match done with
               | [] => hash_ start
               | c :: _ => if isInitialized (hash_ start) then hash_ start
                           else init (hash_ start) (sift_ c)
               end ∧
    hash_table_ s' =
      hash_table_ start ++ ((λ c, (id_ c, getHash (hash_ s') (sift_ c))) <$> done).
Proof.
  apply (hash_initialised_once schedule_3 start). intros h d. reflexivity.
Defined.

Lemma processed_clusters_read_back_witness :
  ∃ done s',
    exec schedule_3 start = Some (done, s') ∧
    ∀ c, c ∈ done → readCluster s' (id_ c) = read_back c.
Proof.
  apply (processed_clusters_read_back schedule_3 start).
  apply (bool_decide_unpack _). vm_compute. exact I.
Defined.

Lemma run_loop_only_processes_witness :
  ∃ done, exec schedule_3 start = Some (done, ingested 3) ∧
          lc_found_ (ingested 3) = lc_found_ start ∧
          graph_ (ingested 3) = graph_ start.
Proof.
  apply (run_loop_only_processes schedule_3 start (ingested 3)). reflexivity.
Defined.

Lemma sequential_ids_own_row_witness :
  ∃ s', processNewCluster (addClusterToQueue (cluster 3) (ingested 3)) = Some s' ∧
        (hash_table_ s').*1 = seqZ 0 (Z.of_nat (length (hash_table_ s'))) ∧
        at_ (hash_table_ s') (id_ (cluster 3))
          = Some (id_ (cluster 3), getHash (hash_ s') (sift_ (cluster 3))) ∧
        searchByHash s' = Some s'.
Proof.
  apply (sequential_ids_own_row (addClusterToQueue (cluster 3) (ingested 3))
           (cluster 3) []).
  - vm_compute. reflexivity.
  - reflexivity.
  - vm_compute. reflexivity.
Defined.

Lemma getCandidates_scored_rows_witness :
  ∃ (hash_q : list Qc) (rest : list (Z * Qc)),
    ((LC_NEIGHBORS < length (hash_table_ (ingested 11)))%nat →
     snd <$> at_ (hash_table_ (ingested 11)) 10 = Some hash_q) ∧
    top5_of_10 ++ rest
      ≡ₚ scored (ingested 11) hash_q
           <$> filter (eligible (ingested 11) 10) (scanned (ingested 11)) ∧
    (rest = [] ∨ length top5_of_10 = 5%nat).
Proof.
  apply (getCandidates_scored_rows (ingested 11) 10 top5_of_10).
  vm_compute. reflexivity.
Defined.

Lemma getCandidates_keeps_the_best_witness :
  StronglySorted (λ a b, ¬ sortByMatching b a) top5_of_10 ∧
  ∀ x y, x ∈ scored (ingested 11) hash_of_10
               <$> filter (eligible (ingested 11) 10) (scanned (ingested 11)) →
         x ∉ top5_of_10 → y ∈ top5_of_10 → ¬ sortByMatching x y.
Proof.
  apply (getCandidates_keeps_the_best (ingested 11) 10 top5_of_10 hash_of_10).
  - intros a b.
    destruct (best_first_total a b); [left|right]; by apply best_first_not_before.
  - intros a b d Hab Hbd. apply best_first_not_before.
    apply best_first_trans with b; by apply best_first_not_before.
  - vm_compute. reflexivity.
  - vm_compute. reflexivity.
Defined.

Lemma pool_is_the_contributions_witness :
  ∃ cs : list (list Point2f * list Point3f),
    Forall2 (λ j kp_pts,
               contribution (c_cluster_ (ingested 11)) (readCluster (ingested 11) j)
               = Some kp_pts)
            (examined (locals walk_of_10)) cs ∧
    matched_kp (locals walk_of_10) = concat cs.*1 ∧
    matched_points (locals walk_of_10) = concat cs.*2.
Proof.
  apply (pool_is_the_contributions (ingested 11) walk_of_10).
  vm_compute. reflexivity.
Defined.

Lemma pool_vectors_same_length_witness :
  length (matched_kp (locals walk_of_10)) = length (matched_points (locals walk_of_10)) ∧
  Forall (λ call, length call.1 = length call.2) (pnp_calls walk_of_10).
Proof.
  apply (pool_vectors_same_length (ingested 11) walk_of_10).
  vm_compute. reflexivity.
Defined.

Lemma processed_neighbors_count_witness :
  processed_neighbors (locals walk_of_10) =
    (LC_NEIGHBORS `min`
     length (filter (other_frame (ingested 11))
               (backward (Z.to_nat (id_ (c_cluster_ (ingested 11)))))))%nat.
Proof.
  apply (processed_neighbors_count (ingested 11) walk_of_10).
  vm_compute. reflexivity.
Defined.

Lemma search_among_same_frame_witness :
  ∃ r, searchInNeigborhood twins_state = Some r ∧
       visited (locals r) = backward (Z.to_nat (id_ (c_cluster_ twins_state))) ∧
       examined (locals r) = [] ∧
       processed_neighbors (locals r) = 0%nat ∧
       pnp_calls r = [([], [])].
Proof.
  apply (search_among_same_frame twins_state).
  - vm_compute. discriminate.
  - intros j Hj.
    assert (E : id_ (c_cluster_ twins_state) = 1) by (vm_compute; reflexivity).
    rewrite E in Hj. assert (j = 0) as -> by lia.
    vm_compute. intros H. apply H. reflexivity.
Defined.

Lemma searchInNeigborhood_free_of_undefined_witness :
  ∃ r, searchInNeigborhood (ingested 3) = Some r ∧
       pnp_calls r = [(matched_points (locals r), matched_kp (locals r))].
Proof.
  apply (searchInNeigborhood_free_of_undefined (ingested 3)).
  - vm_compute. discriminate.
  - intros j Hj _.
    assert (E : id_ (c_cluster_ (ingested 3)) = 2) by (vm_compute; reflexivity).
    rewrite E in Hj. assert (j = 0 ∨ j = 1) as [-> | ->] by lia.
    + split; [vm_compute; discriminate|]. split; [vm_compute; split; reflexivity|].
      vm_compute. repeat constructor; discriminate.
    + split; [vm_compute; discriminate|]. split; [vm_compute; split; reflexivity|].
      vm_compute. repeat constructor; discriminate.
Defined.

Lemma m_percentage_nearest_witness :
  0 < 101 ∧ 2 * 101 * 50 - 101 ≤ 200 * 51 < 2 * 101 * 50 + 101 ∧
  0 ≤ 50 < 2 ^ 31 ∧ (51 ≤ 101 → 50 ≤ 100).
Proof.
  apply (m_percentage_nearest 51 101 101 50).
  - vm_compute. split; reflexivity.
  - reflexivity.
Defined.

End Runs.
